(** * Feature processing engine (src/services/email.py)

    A shallow embedding of the [FeatureConfig] / [FeatureProcessor] /
    [FeatureManager] module: validation, the result cache, the retry
    loop with exponential backoff, the metrics counters and the batch
    dispatcher built on [asyncio.gather].

    Conventions.
    - Python dictionaries whose iteration order is never observed (input
      records, the cache) are finite maps [gmap string _]; dictionaries
      whose order is observable (values printed by [str], keyword
      arguments) are association lists in insertion order.
    - Python [int] is [Z].
    - Effects are explicit: every engine operation is a function on the
      pair of the processor object and the world (the number of calls of
      the external operation made so far and the chronological trace of
      observable events).
    - Exceptions are results: an operation returns [Ok v] or [Raise e]. *)

From Stdlib Require Import ZArith Ascii String.
From stdpp Require Import gmap strings list fin_maps functions pretty sorting.

Set Warnings "-register-all".
Open Scope string_scope.
Open Scope list_scope.
Open Scope Z_scope.

(** ** Python values *)

(** The fragment of Python values that records, results and
    configuration metadata are built from.  Strings are sequences of
    code points below 256. *)
Inductive PyVal : Type :=
| VNone
| VBool (b : bool)
| VInt (z : Z)
| VStr (s : string)
| VList (elems : list PyVal)
| VDict (items : list (string * PyVal)).

(** Exceptions derived from [Exception].  [RuntimeError msg cause]
    carries the [__cause__] set by [raise ... from e]. *)
Inductive PyExn : Type :=
| ValueError (msg : string)
| TypeError (msg : string)
| KeyError (key : string)
| RuntimeError (msg : string) (cause : option PyExn)
| OtherException (cls : string) (msg : string).

Inductive Outcome (A : Type) : Type :=
| Ok (a : A)
| Raise (e : PyExn).
Arguments Ok {A} a.
Arguments Raise {A} e.

Abbreviation Dict := (gmap string PyVal).

(** *** [str] and [repr] *)

Definition hex_digit (d : N) : ascii :=
  match String.get (N.to_nat d) "0123456789abcdef" with
  | Some c => c
  | None => "0"%char
  end.

Definition has_char (c : ascii) (s : string) : bool :=
  existsb (Ascii.eqb c) (list_ascii_of_string s).

Definition squote : ascii := "039"%char.
Definition dquote : ascii := "034"%char.
Definition backslash : ascii := "092"%char.

(** One character of [repr(s)], for the chosen quote. *)
Definition repr_char (quote c : ascii) : string :=
  let n := N_of_ascii c in
  if Ascii.eqb c quote || Ascii.eqb c backslash then
    String backslash (String c EmptyString)
  else if (n =? 9)%N then String backslash "t"
  else if (n =? 10)%N then String backslash "n"
  else if (n =? 13)%N then String backslash "r"
  else if (n <? 32)%N || (n =? 127)%N
          || ((128 <=? n)%N && (n <=? 160)%N) || (n =? 173)%N then
    String backslash
      (String "x" (String (hex_digit (n / 16)) (String (hex_digit (n mod 16)) EmptyString)))
  else String c EmptyString.

(** [repr] of a [str]: single quotes, unless the string holds a single
    quote and no double quote. *)
Definition repr_str (s : string) : string :=
  let quote := if has_char squote s && negb (has_char dquote s)
               then dquote else squote in
  String quote
    (String.concat "" (map (repr_char quote) (list_ascii_of_string s))
     +:+ String quote EmptyString).

Fixpoint py_repr (v : PyVal) : string :=
  match v with
  | VNone => "None"
  | VBool true => "True"
  | VBool false => "False"
  | VInt z => pretty z
  | VStr s => repr_str s
  | VList elems => "[" +:+ String.concat ", " (map py_repr elems) +:+ "]"
  | VDict items =>
      "{" +:+ String.concat ", "
                (map (fun kv => repr_str (fst kv) +:+ ": " +:+ py_repr (snd kv)) items)
      +:+ "}"
  end.

(** [str(v)], which is what an f-string field [{v}] prints. *)
Definition py_str (v : PyVal) : string :=
  match v with
  | VStr s => s
  | _ => py_repr v
  end.

(** ** Data model *)

(** [@dataclass class FeatureConfig], with its defaults. *)
Record FeatureConfig : Type := {
  max_retries : Z;
  timeout : Z;
  cache_enabled : bool;
  metadata : list (string * PyVal)
}.

Definition FeatureConfig_default : FeatureConfig :=
  {| max_retries := 3; timeout := 30; cache_enabled := true; metadata := [] |}.

(** The dictionary [self._metrics], whose three keys never change. *)
Record Metrics : Type := {
  processed : Z;
  failed : Z;
  cache_hits : Z
}.

Record FeatureProcessor : Type := {
  config : FeatureConfig;
  _cache : gmap string PyVal;
  _metrics : Metrics
}.

(** [FeatureProcessor.__init__]: [config or FeatureConfig()]. *)
Definition FeatureProcessor_init (cfg : option FeatureConfig) : FeatureProcessor :=
  {| config := default FeatureConfig_default cfg;
     _cache := ∅;
     _metrics := {| processed := 0; failed := 0; cache_hits := 0 |} |}.

(** ** The world *)

Inductive Event : Type :=
| Exec (n : nat) (data : Dict)            (* call number [n] of [_execute_processing] *)
| Sleep (secs : Z)                        (* [await asyncio.sleep(2 ** attempt)] *)
| LogDebug (cache_key : string)           (* "Cache hit for key: ..." *)
| LogWarning (attempt_no : Z) (e : PyExn) (* "Attempt ... failed: ..." *)
| LogInfo (msg : string).

Record World : Type := {
  calls : nat;
  trace : list Event
}.

Definition World_init : World := {| calls := 0; trace := [] |}.

(** The external operation behind [self._execute_processing]: what call
    number [n] answers on a record.  The call number lets an operation
    answer differently over time. *)
Definition Operation : Type := nat → Dict → Outcome PyVal.

(** The operation as the class defines it: it echoes the payload and the
    configuration metadata and stamps the result with the clock;
    [utcnow n] is [datetime.utcnow().isoformat()] as read by call [n].
    Its 10 ms pause is part of the call and is no backoff sleep. *)
Definition _execute_processing (cfg : FeatureConfig) (utcnow : nat → string) : Operation :=
  fun n data =>
    match data !! "payload" with
    | Some payload =>
        Ok (VDict [("success", VBool true);
                   ("data", payload);
                   ("processed_at", VStr (utcnow n));
                   ("config", VDict (metadata cfg))])
    | None => Raise (KeyError "payload")
    end.

(** ** The engine monad: state and exceptions *)

Definition St : Type := FeatureProcessor * World.
Definition M (A : Type) : Type := St → Outcome A * St.

Definition raise {A} (e : PyExn) : M A := fun s => (Raise e, s).

#[global] Instance M_ret : MRet M := fun A (a : A) s => (Ok a, s).
#[global] Instance M_bind : MBind M := fun A B (k : A → M B) (m : M A) s =>
  match m s with
  | (Ok a, s') => k a s'
  | (Raise e, s') => (Raise e, s')
  end.

Definition get_self : M FeatureProcessor := fun s => (Ok (fst s), s).
Definition update_self (f : FeatureProcessor → FeatureProcessor) : M unit :=
  fun s => (Ok tt, (f (fst s), snd s)).
Definition emit (e : Event) : M unit :=
  fun s => (Ok tt, (fst s, {| calls := calls (snd s); trace := trace (snd s) ++ [e] |})).

(** [data[key]] *)
Definition getitem (data : Dict) (key : string) : M PyVal :=
  match data !! key with
  | Some v => mret v
  | None => raise (KeyError key)
  end.

Definition cache_store (key : string) (v : PyVal) (p : FeatureProcessor) : FeatureProcessor :=
  {| config := config p; _cache := <[key := v]> (_cache p); _metrics := _metrics p |}.

Definition incr_processed (p : FeatureProcessor) : FeatureProcessor :=
  {| config := config p; _cache := _cache p;
     _metrics := {| processed := processed (_metrics p) + 1;
                    failed := failed (_metrics p);
                    cache_hits := cache_hits (_metrics p) |} |}.

Definition incr_failed (p : FeatureProcessor) : FeatureProcessor :=
  {| config := config p; _cache := _cache p;
     _metrics := {| processed := processed (_metrics p);
                    failed := failed (_metrics p) + 1;
                    cache_hits := cache_hits (_metrics p) |} |}.

Definition incr_cache_hits (p : FeatureProcessor) : FeatureProcessor :=
  {| config := config p; _cache := _cache p;
     _metrics := {| processed := processed (_metrics p);
                    failed := failed (_metrics p);
                    cache_hits := cache_hits (_metrics p) + 1 |} |}.

(** ** FeatureProcessor *)

Definition contains {V} (d : gmap string V) (key : string) : bool :=
  match d !! key with
  | Some _ => true
  | None => false
  end.

Definition required_fields : list string := ["id"; "timestamp"; "payload"].

(** [validate]: presence of the three required fields, nothing else. *)
Definition validate (data : Dict) : bool :=
  forallb (contains data) required_fields.

(** [range(n)] *)
Definition range (n : Z) : list Z := seqZ 0 n.

(** [get_metrics] returns a copy of the counters. *)
Definition get_metrics : M Metrics :=
  self ← get_self; mret (_metrics self).

Definition clear (p : FeatureProcessor) : FeatureProcessor :=
  {| config := config p; _cache := ∅; _metrics := _metrics p |}.

(** [clear_cache] *)
Definition clear_cache : M unit :=
  update_self clear;; emit (LogInfo "Cache cleared").

Section Engine.

(** The operation that [self._execute_processing] runs. *)
Variable execute : Operation.

(** [await self._execute_processing(data)], with the exception it may
    raise caught as a value (the [try] / [except Exception as e]). *)
Definition invoke (data : Dict) : M (Outcome PyVal) :=
  fun s =>
    let n := calls (snd s) in
    (Ok (execute n data),
     (fst s, {| calls := S n; trace := trace (snd s) ++ [Exec n data] |})).

(** The part of [process] before the retry loop: validation and the
    cache lookup.  It answers [inl r] on a cache hit and [inr key] on
    a miss. *)
Definition check_cache (data : Dict) : M (PyVal + string) :=
  if negb (validate data) then
    raise (ValueError "Invalid input data structure")
  else
    id ← getitem data "id";
    timestamp ← getitem data "timestamp";
    let cache_key := py_str id +:+ ":" +:+ py_str timestamp in
    self ← get_self;
    if cache_enabled (config self) && contains (_cache self) cache_key then
      update_self incr_cache_hits;;
      emit (LogDebug cache_key);;
      self ← get_self;
      cached ← getitem (_cache self) cache_key;
      mret (inl cached)
    else mret (inr cache_key).

(** The rest of the [try] block, once the operation has returned. *)
Definition on_result (cache_key : string) (result : PyVal) : M PyVal :=
  self ← get_self;
  (if cache_enabled (config self)
   then update_self (cache_store cache_key result)
   else mret tt);;
  update_self incr_processed;;
  mret result.

(** The [except] block of attempt [attempt]. *)
Definition on_exception (attempt : Z) (e : PyExn) : M unit :=
  emit (LogWarning (attempt + 1) e);;
  self ← get_self;
  if (attempt =? max_retries (config self) - 1)%Z then
    update_self incr_failed;;
    raise (RuntimeError
             ("Processing failed after " +:+ pretty (max_retries (config self))
              +:+ " attempts")
             (Some e))
  else emit (Sleep (2 ^ attempt)).

(** [for attempt in attempts: ...] and the [raise] after the loop. *)
Fixpoint retry_loop (data : Dict) (cache_key : string) (attempts : list Z) : M PyVal :=
  match attempts with
  | [] => raise (RuntimeError "Unexpected processing failure" None)
  | attempt :: rest =>
      r ← invoke data;
      match r with
      | Ok result => on_result cache_key result
      | Raise e => on_exception attempt e;; retry_loop data cache_key rest
      end
  end.

(** [process], run without interruption. *)
Definition process (data : Dict) : M PyVal :=
  hit ← check_cache data;
  match hit with
  | inl cached => mret cached
  | inr cache_key =>
      self ← get_self;
      retry_loop data cache_key (range (max_retries (config self)))
  end.

(** *** [process] as a coroutine

    [process] suspends where it awaits: in the operation and in the
    backoff sleep.  A coroutine object is the point where the body is
    suspended together with its local variables. *)
Inductive Coro : Type :=
| CStart (data : Dict)
| CAwaitExec (data : Dict) (cache_key : string) (attempt : Z) (rest : list Z)
             (pending : Outcome PyVal)
| CAwaitSleep (data : Dict) (cache_key : string) (rest : list Z)
| CDone (r : Outcome PyVal).

Definition finished (x : Outcome PyVal * St) : Coro * St := (CDone (fst x), snd x).

(** The head of the loop: leave it, or start the next attempt. *)
Definition next_attempt (data : Dict) (cache_key : string) (attempts : list Z)
  : St → Coro * St :=
  fun s =>
    match attempts with
    | [] => finished (raise (RuntimeError "Unexpected processing failure" None) s)
    | attempt :: rest =>
        match invoke data s with
        | (Ok r, s') => (CAwaitExec data cache_key attempt rest r, s')
        | (Raise e, s') => (CDone (Raise e), s')
        end
    end.

(** One scheduling step: run the coroutine up to its next await. *)
Definition resume (c : Coro) : St → Coro * St :=
  fun s =>
    match c with
    | CStart data =>
        match check_cache data s with
        | (Ok (inl cached), s') => (CDone (Ok cached), s')
        | (Ok (inr cache_key), s') =>
            next_attempt data cache_key (range (max_retries (config (fst s')))) s'
        | (Raise e, s') => (CDone (Raise e), s')
        end
    | CAwaitExec data cache_key attempt rest (Ok result) =>
        finished (on_result cache_key result s)
    | CAwaitExec data cache_key attempt rest (Raise e) =>
        match on_exception attempt e s with
        | (Ok _, s') => (CAwaitSleep data cache_key rest, s')
        | (Raise e', s') => (CDone (Raise e'), s')
        end
    | CAwaitSleep data cache_key rest => next_attempt data cache_key rest s
    | CDone r => (CDone r, s)
    end.

(** Run a coroutine to its end with nothing else scheduled. *)
Definition finish (c : Coro) : St → Outcome PyVal * St :=
  match c with
  | CStart data => process data
  | CAwaitExec data cache_key attempt rest (Ok result) => on_result cache_key result
  | CAwaitExec data cache_key attempt rest (Raise e) =>
      on_exception attempt e;; retry_loop data cache_key rest
  | CAwaitSleep data cache_key rest => retry_loop data cache_key rest
  | CDone r => fun s => (r, s)
  end.

(** *** [asyncio.gather] with [return_exceptions=True]

    The event loop resumes one task at a time.  A schedule lists the
    tasks in the order they are resumed; whatever is still running
    when the schedule ends is run to its end, in task order.  Every
    interleaving of the tasks is some schedule. *)
Fixpoint interleave (sched : list nat) (tasks : list Coro) (s : St) : list Coro * St :=
  match sched with
  | [] => (tasks, s)
  | i :: sched' =>
      match tasks !! i with
      | Some c =>
          let '(c', s') := resume c s in
          interleave sched' (<[i := c']> tasks) s'
      | None => interleave sched' tasks s
      end
  end.

Fixpoint drain (tasks : list Coro) (s : St) : list (Outcome PyVal) * St :=
  match tasks with
  | [] => ([], s)
  | c :: tasks' =>
      let '(r, s') := finish c s in
      let '(rs, s'') := drain tasks' s' in
      (r :: rs, s'')
  end.

(** The result list has one entry per task, an exception being an
    entry like any other. *)
Definition gather (sched : list nat) (tasks : list Coro) (s : St)
  : list (Outcome PyVal) * St :=
  let '(tasks', s') := interleave sched tasks s in
  drain tasks' s'.

End Engine.

(** ** FeatureManager *)

(** Processors are objects: the manager's list holds references, and the
    heap maps a reference to the object's current state.  Adding one
    processor twice makes two entries that alias one object. *)
Abbreviation Ref := nat (only parsing).
Abbreviation Heap := (Ref → FeatureProcessor).

Record FeatureManager : Type := {
  processors : list Ref
}.

Definition FeatureManager_init : FeatureManager := {| processors := [] |}.

(** [self.processors.append(processor)] *)
Definition add_processor (m : FeatureManager) (processor : Ref) : FeatureManager :=
  {| processors := processors m ++ [processor] |}.

(** [process_batch]: every item becomes a coroutine of the first
    processor, and [gather] runs them under a schedule. *)
Definition process_batch (execute : Operation) (sched : list nat)
    (m : FeatureManager) (items : list Dict) (h : Heap) (w : World)
  : Outcome (list (Outcome PyVal)) * (Heap * World) :=
  match processors m with
  | [] => (Raise (ValueError "No processors available"), (h, w))
  | processor :: _ =>
      let tasks := CStart <$> items in
      let '(results, (p', w')) := gather execute sched tasks (h processor, w) in
      (Ok results, (<[processor := p']> h, w'))
  end.

(** ** Factory *)

(** Keyword arguments, as the items of the mapping in insertion order. *)
Abbreviation Kwargs := (list (string * PyVal)) (only parsing).

Definition config_fields : list string :=
  ["max_retries"; "timeout"; "cache_enabled"; "metadata"].

Fixpoint kwargs_get (name : string) (kwargs : Kwargs) : option PyVal :=
  match kwargs with
  | [] => None
  | (k, v) :: kwargs' => if String.eqb k name then Some v else kwargs_get name kwargs'
  end.

Definition is_config_field (name : string) : bool :=
  existsb (String.eqb name) config_fields.

(** The first keyword that is not a field of the dataclass. *)
Fixpoint unexpected_keyword (kwargs : Kwargs) : option string :=
  match kwargs with
  | [] => None
  | (k, _) :: kwargs' => if is_config_field k then unexpected_keyword kwargs' else Some k
  end.

Definition as_int (v : PyVal) : option Z :=
  match v with VInt z => Some z | _ => None end.
Definition as_bool (v : PyVal) : option bool :=
  match v with VBool b => Some b | _ => None end.
Definition as_dict (v : PyVal) : option (list (string * PyVal)) :=
  match v with VDict items => Some items | _ => None end.

(** The instance that the generated [__init__] builds.  It stores each
    value as it comes: the annotations of the dataclass are not checked,
    so a field can hold a value of any type. *)
Record ConfigObject : Type := {
  obj_max_retries : PyVal;
  obj_timeout : PyVal;
  obj_cache_enabled : PyVal;
  obj_metadata : PyVal
}.

(** A parameter of [__init__]: the keyword's value, or the default. *)
Definition keyword (kwargs : Kwargs) (name : string) (dflt : PyVal) : PyVal :=
  default dflt (kwargs_get name kwargs).

(** The [TypeError] of a call whose keyword [k] is no field.  The
    first parameter of [__init__] is [self], which the call has bound
    already: that keyword is reported as a second value for it. *)
Definition unexpected_keyword_message (k : string) : string :=
  if String.eqb k "self"
  then "FeatureConfig.__init__() got multiple values for argument 'self'"
  else "FeatureConfig.__init__() got an unexpected keyword argument '" +:+ k +:+ "'".

(** [FeatureConfig] called with the mapping as keyword arguments, that
    is the [__init__] that [@dataclass] generates: the first keyword
    that is no field raises [TypeError]; otherwise the values are
    stored, without any check of their type or of their range. *)
Definition FeatureConfig_init (kwargs : Kwargs) : Outcome ConfigObject :=
  match unexpected_keyword kwargs with
  | Some k => Raise (TypeError (unexpected_keyword_message k))
  | None =>
      Ok {| obj_max_retries := keyword kwargs "max_retries" (VInt 3);
            obj_timeout := keyword kwargs "timeout" (VInt 30);
            obj_cache_enabled := keyword kwargs "cache_enabled" (VBool true);
            obj_metadata := keyword kwargs "metadata" (VDict []) |}
  end.

(** The instance read at the annotated types of its fields, which is
    how the engine uses it.  The engine of this development holds a
    configuration of that shape, so there is no engine to give ([None])
    for an instance one of whose fields holds a value of another type;
    Python builds an engine around such an instance too. *)
Definition typed_config (o : ConfigObject) : option FeatureConfig :=
  mr ← as_int (obj_max_retries o);
  t ← as_int (obj_timeout o);
  ce ← as_bool (obj_cache_enabled o);
  md ← as_dict (obj_metadata o);
  Some {| max_retries := mr; timeout := t; cache_enabled := ce; metadata := md |}.

(** [create_feature_processor]: [if config:] is false for [None] and
    for the empty mapping. *)
Definition create_feature_processor (config : option Kwargs)
  : option (Outcome FeatureProcessor) :=
  match config with
  | Some ((_ :: _) as kwargs) =>
      match FeatureConfig_init kwargs with
      | Ok feature_config =>
          cfg ← typed_config feature_config;
          Some (Ok (FeatureProcessor_init (Some cfg)))
      | Raise e => Some (Raise e)
      end
  | _ => Some (Ok (FeatureProcessor_init (Some FeatureConfig_default)))
  end.

(** ** Observations *)

(** The cache key of a record that has an id and a timestamp. *)
Definition cache_key (data : Dict) : option string :=
  id ← data !! "id";
  timestamp ← data !! "timestamp";
  Some (py_str id +:+ ":" +:+ py_str timestamp).

(** Whether [process] answers the record from the cache. *)
Definition served_from_cache (p : FeatureProcessor) (data : Dict) : bool :=
  cache_enabled (config p)
  && match cache_key data with
     | Some key => contains (_cache p) key
     | None => false
     end.

(** The events of attempt [j] when it fails with [err j] and is not
    the last one; [n0] is the number of calls of the operation before
    the loop. *)
Definition backoff_events (n0 : nat) (data : Dict) (err : nat → PyExn) (j : nat)
  : list Event :=
  [Exec (n0 + j) data; LogWarning (Z.of_nat j + 1) (err j); Sleep (2 ^ Z.of_nat j)].

(** The public operations of one engine. *)
Inductive EngineCall : Type :=
| CallProcess (data : Dict)
| CallClearCache
| CallGetMetrics.

Definition run_call (execute : Operation) (c : EngineCall) (s : St) : St :=
  match c with
  | CallProcess data => snd (process execute data s)
  | CallClearCache => snd (clear_cache s)
  | CallGetMetrics => snd (get_metrics s)
  end.

(** The cache invariant: whatever the cache holds under a key is the
    value that an earlier call of the operation, on a record with that
    key, returned. *)
Definition cache_inv (execute : Operation) (s : St) : Prop :=
  ∀ key v, _cache (fst s) !! key = Some v →
    ∃ n data, Exec n data ∈ trace (snd s)
              ∧ execute n data = Ok v
              ∧ cache_key data = Some key.

(** The backoff durations slept, in order. *)
Definition sleeps (evs : list Event) : list Z :=
  omap (fun ev => match ev with Sleep d => Some d | _ => None end) evs.

(** The calls of the external operation, in order. *)
Definition executions (evs : list Event) : list (nat * Dict) :=
  omap (fun ev => match ev with Exec n d => Some (n, d) | _ => None end) evs.

(** The states of an engine: the one it is constructed in, in whatever
    world, and those its operations lead to. *)
Inductive reachable (execute : Operation) : St → Prop :=
| reachable_init cfg w : reachable execute (FeatureProcessor_init cfg, w)
| reachable_call c s : reachable execute s → reachable execute (run_call execute c s).

(** The sum of the three counters: the number of outcomes counted. *)
Definition counted (m : Metrics) : Z := processed m + failed m + cache_hits m.

(** *** A batch, seen from its trace

    The facts about a batch are stated against what the batch did: the
    events it added to the trace.  [w0] is the world before the batch
    and [p0] the state of the engine before it. *)

(** The world [w'] is the world [w] some steps later. *)
Definition extends (w w' : World) : Prop :=
  (calls w ≤ calls w')%nat ∧ ∃ evs, trace w' = trace w ++ evs.

(** The events that came after the world [w0]. *)
Definition events_since (w0 w : World) : list Event :=
  drop (length (trace w0)) (trace w).

(** The calls numbered [ns] are calls of the operation on [data] that
    were made after [w0], in this order. *)
Definition made (w0 w : World) (data : Dict) (ns : list nat) : Prop :=
  StronglySorted lt ns
  ∧ ∀ n, n ∈ ns → Exec n data ∈ events_since w0 w ∧ (calls w0 ≤ n < calls w)%nat.

Definition all_failed (execute : Operation) (data : Dict) (ns : list nat) : Prop :=
  ∀ n, n ∈ ns → ∃ e, execute n data = Raise e.

(** The cache holds only what it held before the batch and values that
    a call of the batch returned on a record with the same key. *)
Definition cache_from (execute : Operation) (p0 : FeatureProcessor) (w0 : World)
    (s : St) : Prop :=
  ∀ key v, _cache (fst s) !! key = Some v →
    _cache p0 !! key = Some v
    ∨ ∃ n data, Exec n data ∈ events_since w0 (snd s)
                ∧ execute n data = Ok v
                ∧ cache_key data = Some key.

(** What the slot of a record holds, the world being [w] now.  The
    validation error, exactly when the record is invalid.  Otherwise
    one of four things: the result of a call that this task made on the
    record, after calls of its own that all failed; a value found in the
    cache under the record's key, which the cache held before the batch
    or which a call of the batch returned on a record with that key; the
    error of a loop without any attempt, when [max_retries <= 0]; or the
    processing error after [max_retries] calls of this task on the
    record that all failed, its cause being the failure of the last. *)
Definition slot_ok (execute : Operation) (p0 : FeatureProcessor) (w0 w : World)
    (data : Dict) (r : Outcome PyVal) : Prop :=
  let N := max_retries (config p0) in
  if validate data then
    (∃ ns n v, (length ns < Z.to_nat N)%nat
               ∧ made w0 w data (ns ++ [n])
               ∧ all_failed execute data ns
               ∧ execute n data = Ok v
               ∧ r = Ok v)
    ∨ (∃ key v, cache_key data = Some key
                ∧ r = Ok v
                ∧ (_cache p0 !! key = Some v
                   ∨ ∃ n data', Exec n data' ∈ events_since w0 w
                                ∧ execute n data' = Ok v
                                ∧ cache_key data' = Some key))
    ∨ (N ≤ 0 ∧ r = Raise (RuntimeError "Unexpected processing failure" None))
    ∨ (∃ ns n e, S (length ns) = Z.to_nat N
                 ∧ made w0 w data (ns ++ [n])
                 ∧ all_failed execute data ns
                 ∧ execute n data = Raise e
                 ∧ r = Raise (RuntimeError
                                ("Processing failed after " +:+ pretty N +:+ " attempts")
                                (Some e)))
  else r = Raise (ValueError "Invalid input data structure").

(** A coroutine of [process] on the record [data], wherever it is
    suspended: the attempts it has made so far are the calls [ns], and
    the attempts left are those of the loop from there on. *)
Definition task_of (execute : Operation) (p0 : FeatureProcessor) (w0 w : World)
    (data : Dict) (c : Coro) : Prop :=
  let N := max_retries (config p0) in
  match c with
  | CStart d => d = data
  | CAwaitExec d key attempt rest pending =>
      d = data ∧ validate data = true ∧ cache_key data = Some key
      ∧ ∃ ns n, attempt = Z.of_nat (length ns)
                ∧ rest = Z.of_nat <$> seq (S (length ns)) (Z.to_nat N - S (length ns))
                ∧ (length ns < Z.to_nat N)%nat
                ∧ made w0 w data (ns ++ [n])
                ∧ all_failed execute data ns
                ∧ pending = execute n data
  | CAwaitSleep d key rest =>
      d = data ∧ validate data = true ∧ cache_key data = Some key
      ∧ ∃ ns, rest = Z.of_nat <$> seq (length ns) (Z.to_nat N - length ns)
              ∧ (length ns < Z.to_nat N)%nat
              ∧ made w0 w data ns
              ∧ all_failed execute data ns
  | CDone r => slot_ok execute p0 w0 w data r
  end.

(** What holds of the engine and the world all along a batch on the
    records [items]: the configuration is the one the batch started
    with, the world is a later one, the cache has grown by answers of
    the batch only, and every call of the batch is on one of its
    records. *)
Definition batch_inv (execute : Operation) (items : list Dict)
    (p0 : FeatureProcessor) (w0 : World) (s : St) : Prop :=
  config (fst s) = config p0
  ∧ extends w0 (snd s)
  ∧ cache_from execute p0 w0 s
  ∧ ∀ n d, Exec n d ∈ events_since w0 (snd s) → d ∈ items.

(** The outcomes a task has counted: one once it has returned, unless
    its record is invalid. *)
Definition contributed (data : Dict) (c : Coro) : Z :=
  match c with
  | CDone _ => if validate data then 1 else 0
  | _ => 0
  end.

Fixpoint contributions (ds : list Dict) (tasks : list Coro) : Z :=
  match ds, tasks with
  | d :: ds', c :: tasks' => contributed d c + contributions ds' tasks'
  | _, _ => 0
  end.

(** The number of records of a batch that pass validation. *)
Definition valid_count (ds : list Dict) : Z :=
  Z.of_nat (length (filter (λ d, validate d = true) ds)).

(** The steps a coroutine has left at most, [N] being the retry count. *)
Definition steps_left (N : Z) (c : Coro) : nat :=
  match c with
  | CStart _ => (2 * Z.to_nat N + 3)%nat
  | CAwaitExec _ _ _ rest _ => (2 * length rest + 2)%nat
  | CAwaitSleep _ _ rest => (2 * length rest + 1)%nat
  | CDone _ => 0%nat
  end.

(** What one task keeps true from step to step: its own invariant and
    the batch's, the world being later than [ws], and the counters
    having counted, next to the outcomes [K], this task's outcome once
    it has one. *)
Definition step_inv (execute : Operation) (items : list Dict)
    (p0 : FeatureProcessor) (w0 : World) (data : Dict) (ws : World) (K : Z)
    (c : Coro) (s : St) : Prop :=
  task_of execute p0 w0 (snd s) data c
  ∧ batch_inv execute items p0 w0 s
  ∧ extends ws (snd s)
  ∧ (1 ≤ max_retries (config p0) →
     counted (_metrics (fst s)) - contributed data c = K).

(** How an attempt that is the last one to run ends: with the result
    of the call numbered [n] and the bookkeeping of the [try] block, or
    with the processing error that wraps the failure of that call. *)
Definition loop_ends (execute : Operation) (data : Dict) (key : string)
    (p : FeatureProcessor) (n : nat) (r : Outcome PyVal) (p' : FeatureProcessor) : Prop :=
  (∃ v, execute n data = Ok v
        ∧ r = Ok v
        ∧ p' = incr_processed
                 (if cache_enabled (config p) then cache_store key v p else p))
  ∨ (∃ e, execute n data = Raise e
          ∧ r = Raise (RuntimeError
                         ("Processing failed after "
                          +:+ pretty (max_retries (config p)) +:+ " attempts")
                         (Some e))
          ∧ p' = incr_failed p).

(** The time slept in backoff. *)
Definition total_sleep (evs : list Event) : Z := foldr Z.add 0 (sleeps evs).

(** The coroutine of a record once it has made call [n], its first
    attempt, and awaits the answer. *)
Definition started (execute : Operation) (N : Z) (n : nat) (d : Dict) : Coro :=
  CAwaitExec d (default "" (cache_key d)) 0
             (Z.of_nat <$> seq 1 (Z.to_nat N - 1)) (execute n d).

(** The tasks of a batch once each has been started, in task order,
    the first call being call [n]; the events this leaves; and the
    answers the calls will give. *)
Fixpoint started_all (execute : Operation) (N : Z) (n : nat) (items : list Dict)
  : list Coro :=
  match items with
  | [] => []
  | d :: items' => started execute N n d :: started_all execute N (S n) items'
  end.

Fixpoint start_events (n : nat) (items : list Dict) : list Event :=
  match items with
  | [] => []
  | d :: items' => Exec n d :: start_events (S n) items'
  end.

Fixpoint answers (execute : Operation) (n : nat) (items : list Dict)
  : list (Outcome PyVal) :=
  match items with
  | [] => []
  | d :: items' => execute n d :: answers execute (S n) items'
  end.

(** The tasks that have not returned yet. *)
Definition is_pending (c : Coro) : nat :=
  match c with CDone _ => 0%nat | _ => 1%nat end.

Fixpoint pending (tasks : list Coro) : nat :=
  match tasks with
  | [] => 0%nat
  | c :: tasks' => (is_pending c + pending tasks')%nat
  end.

(** A task that awaits the answer [r] of its call, or has returned it. *)
Definition landing (r : Outcome PyVal) (c : Coro) : Prop :=
  (∃ d key attempt rest, c = CAwaitExec d key attempt rest r) ∨ c = CDone r.

(** ** Sample operations and records *)

Definition always_failing : Operation :=
  fun n _ => Raise (OtherException "ConnectionError" (pretty n)).

Definition sample_clock (n : nat) : string := "2024-01-01T00:00:0" +:+ pretty n.

Definition sample_data : Dict :=
  {[ "id" := VStr "test-123"; "timestamp" := VInt 1234567890;
     "payload" := VDict [("key", VStr "value")] ]}.

Definition invalid_data : Dict := {[ "id" := VStr "test" ]}.

Definition config_with_retries (n : Z) : FeatureConfig :=
  {| max_retries := n; timeout := 10; cache_enabled := true; metadata := [] |}.

(** The class's own operation, with the default configuration. *)
Definition builtin_operation : Operation :=
  _execute_processing FeatureConfig_default sample_clock.

(** The first [k] calls fail, the later ones answer as the class's own
    operation does. *)
Definition flaky_operation (k : nat) : Operation :=
  fun n data =>
    if (n <? k)%nat then Raise (OtherException "TimeoutError" (pretty n))
    else builtin_operation n data.

Definition flaky_error (n : nat) : PyExn := OtherException "TimeoutError" (pretty n).

Definition fresh_processor (n : Z) : FeatureProcessor :=
  FeatureProcessor_init (Some (config_with_retries n)).

Definition fresh_heap : nat → FeatureProcessor := fun _ => FeatureProcessor_init None.

(** An engine that already holds a value under the key of
    [sample_data], and an engine with caching disabled. *)
Definition cached_processor : FeatureProcessor :=
  {| config := config_with_retries 2;
     _cache := {[ "test-123:1234567890" := VStr "stale" ]};
     _metrics := {| processed := 1; failed := 0; cache_hits := 0 |} |}.

Definition uncached_processor : FeatureProcessor :=
  FeatureProcessor_init
    (Some {| max_retries := 2; timeout := 10; cache_enabled := false; metadata := [] |}).

Definition other_payload : Dict :=
  {[ "id" := VStr "test-123"; "timestamp" := VInt 1234567890;
     "payload" := VStr "something else" ]}.

Definition one_engine : FeatureManager := add_processor FeatureManager_init 0%nat.

(** A second valid record, with another key. *)
Definition late_data : Dict :=
  {[ "id" := VStr "test-456"; "timestamp" := VInt 1234567891;
     "payload" := VDict [("key", VStr "other")] ]}.

(** The first [k] calls answer as the class's own operation does, the
    later ones fail. *)
Definition failing_after (k : nat) : Operation :=
  fun n data =>
    if (n <? k)%nat then builtin_operation n data
    else Raise (OtherException "ConnectionError" (pretty n)).

(** * Proofs *)

(** ** The monad and the small steps *)

Ltac munfold :=
  unfold mbind, M_bind, mret, M_ret, raise, get_self, update_self, emit, getitem.

Ltac msimpl := munfold; simpl.

Lemma contains_true {V} (d : gmap string V) key :
  contains d key = true ↔ is_Some (d !! key).
Proof.
  unfold contains. destruct (d !! key) as [v|]; split; intros H; done.
Qed.

Lemma contains_false {V} (d : gmap string V) key :
  contains d key = false ↔ d !! key = None.
Proof. unfold contains. destruct (d !! key); split; intros H; done. Qed.

Lemma validate_true (data : Dict) :
  validate data = true ↔
  is_Some (data !! "id") ∧ is_Some (data !! "timestamp") ∧ is_Some (data !! "payload").
Proof.
  unfold validate, required_fields. simpl.
  rewrite !andb_true_iff, !contains_true. tauto.
Qed.

Lemma validate_false (data : Dict) :
  validate data = false ↔
  data !! "id" = None ∨ data !! "timestamp" = None ∨ data !! "payload" = None.
Proof.
  unfold validate, required_fields. simpl.
  rewrite !andb_false_iff, !contains_false. intuition congruence.
Qed.

Lemma validate_cache_key (data : Dict) :
  validate data = true → is_Some (cache_key data).
Proof.
  intros ([id Hid] & [ts Hts] & _)%validate_true.
  unfold cache_key. rewrite Hid, Hts. simpl. eauto.
Qed.

(** The operation of the class cannot fail on a record that passed
    validation: its only lookup is the payload. *)
Lemma _execute_processing_valid cfg utcnow n (data : Dict) :
  validate data = true →
  ∃ payload,
    data !! "payload" = Some payload
    ∧ _execute_processing cfg utcnow n data
      = Ok (VDict [("success", VBool true);
                   ("data", payload);
                   ("processed_at", VStr (utcnow n));
                   ("config", VDict (metadata cfg))]).
Proof.
  intros (_ & _ & [payload Hp])%validate_true. exists payload.
  split; [done|]. unfold _execute_processing. by rewrite Hp.
Qed.

Section EngineFacts.

Variable execute : Operation.

Lemma check_cache_invalid data s :
  validate data = false →
  check_cache data s = (Raise (ValueError "Invalid input data structure"), s).
Proof. intros Hv. unfold check_cache. rewrite Hv. reflexivity. Qed.

Lemma check_cache_miss data key p w :
  validate data = true →
  cache_key data = Some key →
  served_from_cache p data = false →
  check_cache data (p, w) = (Ok (inr key), (p, w)).
Proof.
  intros Hv Hk Hmiss. unfold check_cache. rewrite Hv. simpl.
  unfold served_from_cache in Hmiss. rewrite Hk in Hmiss.
  unfold cache_key in Hk.
  destruct (data !! "id") as [id|] eqn:Hid; [|done].
  destruct (data !! "timestamp") as [ts|] eqn:Hts; [|done].
  simpl in Hk. injection Hk as <-.
  msimpl. rewrite Hid. simpl. rewrite Hts. simpl.
  by rewrite Hmiss.
Qed.

Lemma check_cache_hit data key v p w :
  validate data = true →
  cache_key data = Some key →
  cache_enabled (config p) = true →
  _cache p !! key = Some v →
  check_cache data (p, w)
  = (Ok (inl v),
     (incr_cache_hits p,
      {| calls := calls w; trace := trace w ++ [LogDebug key] |})).
Proof.
  intros Hv Hk Hen Hc. unfold check_cache. rewrite Hv. simpl.
  unfold cache_key in Hk.
  destruct (data !! "id") as [id|] eqn:Hid; [|done].
  destruct (data !! "timestamp") as [ts|] eqn:Hts; [|done].
  simpl in Hk. injection Hk as <-.
  msimpl. rewrite Hid. simpl. rewrite Hts. simpl.
  rewrite Hen. unfold contains. rewrite Hc. simpl. by rewrite Hc.
Qed.

Lemma served_from_cache_true data p :
  served_from_cache p data = true →
  cache_enabled (config p) = true
  ∧ ∃ key v, cache_key data = Some key ∧ _cache p !! key = Some v.
Proof.
  unfold served_from_cache. intros [Hen Hc]%andb_true_iff. split; [done|].
  destruct (cache_key data) as [key|]; [|done].
  apply contains_true in Hc as [v Hv]. eauto.
Qed.

(** *** One turn of the retry loop *)

Lemma range_nat N : range N = Z.of_nat <$> seq 0 (Z.to_nat N).
Proof.
  unfold range, seqZ. apply list_fmap_ext. intros _ i _. lia.
Qed.

Lemma retry_loop_ok data key attempt rest p w v :
  execute (calls w) data = Ok v →
  retry_loop execute data key (attempt :: rest) (p, w)
  = (Ok v,
     (incr_processed (if cache_enabled (config p) then cache_store key v p else p),
      {| calls := S (calls w); trace := trace w ++ [Exec (calls w) data] |})).
Proof.
  intros Hex. simpl. unfold invoke, on_result. msimpl. rewrite Hex. simpl.
  by destruct (cache_enabled (config p)).
Qed.

Lemma retry_loop_fail_last data key attempt rest p w e :
  execute (calls w) data = Raise e →
  attempt = max_retries (config p) - 1 →
  retry_loop execute data key (attempt :: rest) (p, w)
  = (Raise (RuntimeError
              ("Processing failed after " +:+ pretty (max_retries (config p))
               +:+ " attempts") (Some e)),
     (incr_failed p,
      {| calls := S (calls w);
         trace := trace w ++ [Exec (calls w) data; LogWarning (attempt + 1) e] |})).
Proof.
  intros Hex Hlast. simpl. unfold invoke, on_exception. msimpl. rewrite Hex. simpl.
  rewrite (proj2 (Z.eqb_eq _ _) Hlast). simpl.
  by rewrite <- app_assoc.
Qed.

Lemma retry_loop_fail_more data key attempt rest p w e :
  execute (calls w) data = Raise e →
  attempt ≠ max_retries (config p) - 1 →
  retry_loop execute data key (attempt :: rest) (p, w)
  = retry_loop execute data key rest
      (p, {| calls := S (calls w);
             trace := trace w ++ [Exec (calls w) data; LogWarning (attempt + 1) e;
                                  Sleep (2 ^ attempt)] |}).
Proof.
  intros Hex Hlast. simpl. unfold invoke, on_exception. msimpl. rewrite Hex. simpl.
  rewrite (proj2 (Z.eqb_neq _ _) Hlast). simpl.
  by rewrite <- !app_assoc.
Qed.

(** [k] failing attempts, none of them the last one, starting at
    attempt [a]: the loop has called, warned and slept [k] times and
    is at attempt [a + k]. *)
Lemma retry_loop_backoff data key (err : nat → PyExn) n0 k :
  ∀ a len p w,
    calls w = (n0 + a)%nat →
    (k ≤ len)%nat →
    Z.of_nat (a + k) ≤ max_retries (config p) - 1 →
    (∀ j, (a ≤ j < a + k)%nat → execute (n0 + j)%nat data = Raise (err j)) →
    retry_loop execute data key (Z.of_nat <$> seq a len) (p, w)
    = retry_loop execute data key (Z.of_nat <$> seq (a + k) (len - k))
        (p, {| calls := (n0 + a + k)%nat;
               trace := trace w ++ flat_map (backoff_events n0 data err) (seq a k) |}).
Proof.
  induction k as [|k IH]; intros a len p w Hcalls Hlen Hnotlast Hfail.
  - simpl. rewrite app_nil_r, !Nat.add_0_r, Nat.sub_0_r, <- Hcalls. by destruct w.
  - destruct len as [|len]; [lia|]. simpl seq. rewrite fmap_cons.
    rewrite retry_loop_fail_more with (e := err a); cycle 1.
    { rewrite Hcalls. apply Hfail. lia. }
    { lia. }
    rewrite (IH (S a) len); simpl; try lia.
    + rewrite Hcalls, <- app_assoc. simpl.
      replace (a + S k)%nat with (S (a + k)) by lia.
      replace (n0 + a + S k)%nat with (n0 + S a + k)%nat by lia.
      replace (S (a + k)) with (S a + k)%nat by lia.
      reflexivity.
    + intros j Hj. apply Hfail. lia.
Qed.

(** *** Whole calls of [process] *)

Lemma process_miss data key p w :
  validate data = true →
  cache_key data = Some key →
  served_from_cache p data = false →
  process execute data (p, w)
  = retry_loop execute data key (range (max_retries (config p))) (p, w).
Proof.
  intros Hv Hk Hmiss. unfold process. unfold mbind at 1, M_bind at 1.
  by rewrite (check_cache_miss _ _ _ _ Hv Hk Hmiss).
Qed.

(** The loop does not run at all. *)
Lemma process_no_attempt data p w :
  validate data = true →
  served_from_cache p data = false →
  max_retries (config p) ≤ 0 →
  process execute data (p, w)
  = (Raise (RuntimeError "Unexpected processing failure" None), (p, w)).
Proof.
  intros Hv Hmiss HN.
  destruct (validate_cache_key _ Hv) as [key Hk].
  rewrite (process_miss _ _ _ _ Hv Hk Hmiss), range_nat.
  replace (Z.to_nat (max_retries (config p))) with 0%nat by lia.
  reflexivity.
Qed.

(** Every attempt fails. *)
Lemma process_exhausted data p w (err : nat → PyExn) (f : nat) :
  validate data = true →
  served_from_cache p data = false →
  max_retries (config p) = Z.of_nat (S f) →
  (∀ j, (j < S f)%nat → execute (calls w + j)%nat data = Raise (err j)) →
  process execute data (p, w)
  = (Raise (RuntimeError
              ("Processing failed after " +:+ pretty (max_retries (config p))
               +:+ " attempts") (Some (err f))),
     (incr_failed p,
      {| calls := (calls w + S f)%nat;
         trace := trace w
                  ++ flat_map (backoff_events (calls w) data err) (seq 0 f)
                  ++ [Exec (calls w + f) data; LogWarning (Z.of_nat f + 1) (err f)] |})).
Proof.
  intros Hv Hmiss HN Hfail.
  destruct (validate_cache_key _ Hv) as [key Hk].
  rewrite (process_miss _ _ _ _ Hv Hk Hmiss), range_nat.
  replace (Z.to_nat (max_retries (config p))) with (S f) by lia.
  rewrite (retry_loop_backoff data key err (calls w) f 0 (S f) p w);
    [| lia | lia | simpl; lia | intros j Hj; apply Hfail; lia ].
  replace (S f - f)%nat with 1%nat by lia. simpl seq. rewrite fmap_cons.
  rewrite retry_loop_fail_last with (e := err f); simpl.
  - rewrite Nat.add_0_r, <- app_assoc.
    by replace (calls w + S f)%nat with (S (calls w + f)) by lia.
  - rewrite Nat.add_0_r. apply Hfail. lia.
  - lia.
Qed.

(** [f] attempts fail and the next one succeeds. *)
Lemma process_succeeds_after data p w (err : nat → PyExn) (f : nat) v :
  validate data = true →
  served_from_cache p data = false →
  Z.of_nat f < max_retries (config p) →
  (∀ j, (j < f)%nat → execute (calls w + j)%nat data = Raise (err j)) →
  execute (calls w + f)%nat data = Ok v →
  ∃ key, cache_key data = Some key ∧
  process execute data (p, w)
  = (Ok v,
     (incr_processed (if cache_enabled (config p) then cache_store key v p else p),
      {| calls := (calls w + S f)%nat;
         trace := trace w
                  ++ flat_map (backoff_events (calls w) data err) (seq 0 f)
                  ++ [Exec (calls w + f) data] |})).
Proof.
  intros Hv Hmiss HN Hfail Hok.
  destruct (validate_cache_key _ Hv) as [key Hk]. exists key. split; [done|].
  rewrite (process_miss _ _ _ _ Hv Hk Hmiss), range_nat.
  rewrite (retry_loop_backoff data key err (calls w) f 0 _ p w);
    [| lia | lia | simpl; lia | intros j Hj; apply Hfail; lia ].
  destruct (Z.to_nat (max_retries (config p)) - f)%nat as [|m] eqn:Hm; [lia|].
  simpl seq. rewrite fmap_cons.
  rewrite retry_loop_ok with (v := v); simpl.
  - rewrite Nat.add_0_r, <- app_assoc.
    by replace (calls w + S f)%nat with (S (calls w + f)) by lia.
  - by rewrite Nat.add_0_r.
Qed.

(** A cache hit. *)
Lemma process_hit data key v p w :
  validate data = true →
  cache_key data = Some key →
  cache_enabled (config p) = true →
  _cache p !! key = Some v →
  process execute data (p, w)
  = (Ok v, (incr_cache_hits p,
            {| calls := calls w; trace := trace w ++ [LogDebug key] |})).
Proof.
  intros Hv Hk Hen Hc. unfold process. unfold mbind at 1, M_bind at 1.
  by rewrite (check_cache_hit _ _ _ _ _ Hv Hk Hen Hc).
Qed.

End EngineFacts.

(** ** The cache invariant *)

Section Invariant.

Variable execute : Operation.

(** The invariant survives whatever leaves the cache alone and only
    extends the trace. *)
Lemma cache_inv_frame p w p' w' evs :
  cache_inv execute (p, w) →
  _cache p' = _cache p →
  trace w' = trace w ++ evs →
  cache_inv execute (p', w').
Proof.
  intros Hinv Hc Ht key v Hlook. simpl in *. rewrite Hc in Hlook.
  destruct (Hinv key v Hlook) as (n & d & Hin & Hex & Hk).
  exists n, d. rewrite Ht. split_and!; [|done..].
  apply elem_of_app. by left.
Qed.

(** Storing the value that call [n] on [data] returned. *)
Lemma cache_inv_store p w w' key v n data evs :
  cache_inv execute (p, w) →
  trace w' = trace w ++ evs →
  Exec n data ∈ evs →
  execute n data = Ok v →
  cache_key data = Some key →
  cache_inv execute (cache_store key v p, w').
Proof.
  intros Hinv Ht Hin Hex Hk key' v' Hlook. simpl in *. rewrite Ht.
  destruct (decide (key = key')) as [<-|Hne].
  - rewrite lookup_insert_eq in Hlook. injection Hlook as <-.
    exists n, data. split_and!; [|done..]. apply elem_of_app. by right.
  - rewrite lookup_insert_ne in Hlook by done.
    destruct (Hinv key' v' Hlook) as (n' & d' & Hin' & Hex' & Hk').
    exists n', d'. split_and!; [|done..]. apply elem_of_app. by left.
Qed.

Lemma cache_inv_init cfg w : cache_inv execute (FeatureProcessor_init cfg, w).
Proof. intros key v Hlook. simpl in Hlook. by rewrite lookup_empty in Hlook. Qed.

Lemma retry_loop_cache_inv data key attempts :
  cache_key data = Some key →
  ∀ p w,
    cache_inv execute (p, w) →
    cache_inv execute (snd (retry_loop execute data key attempts (p, w))).
Proof.
  intros Hk. induction attempts as [|attempt rest IH]; intros p w Hinv; [done|].
  destruct (execute (calls w) data) as [v|e] eqn:Hex.
  - rewrite (retry_loop_ok execute data key attempt rest p w v Hex). simpl.
    destruct (cache_enabled (config p)).
    + apply cache_inv_frame
        with (p := cache_store key v p)
             (w := {| calls := S (calls w); trace := trace w ++ [Exec (calls w) data] |})
             (evs := []); [|done|by rewrite app_nil_r].
      eapply cache_inv_store; [exact Hinv|reflexivity|by apply list_elem_of_singleton|done..].
    + by eapply cache_inv_frame; [exact Hinv| |].
  - destruct (decide (attempt = max_retries (config p) - 1)) as [Hlast|Hmore].
    + rewrite (retry_loop_fail_last execute data key attempt rest p w e Hex Hlast).
      by eapply cache_inv_frame; [exact Hinv| |].
    + rewrite (retry_loop_fail_more execute data key attempt rest p w e Hex Hmore).
      apply IH. by eapply cache_inv_frame; [exact Hinv| |].
Qed.

Lemma process_cache_inv data s :
  cache_inv execute s → cache_inv execute (snd (process execute data s)).
Proof.
  destruct s as [p w]. intros Hinv.
  destruct (validate data) eqn:Hv.
  - destruct (validate_cache_key _ Hv) as [key Hk].
    destruct (served_from_cache p data) eqn:Hserved.
    + destruct (served_from_cache_true _ _ Hserved) as (Hen & key' & v & Hk' & Hc).
      rewrite (process_hit execute data key' v p w Hv Hk' Hen Hc).
      by eapply cache_inv_frame; [exact Hinv| |].
    + rewrite (process_miss execute data key p w Hv Hk Hserved).
      by apply retry_loop_cache_inv.
  - unfold process, mbind, M_bind. by rewrite check_cache_invalid.
Qed.

Lemma run_call_cache_inv c s :
  cache_inv execute s → cache_inv execute (run_call execute c s).
Proof.
  destruct c as [data| |]; simpl.
  - apply process_cache_inv.
  - intros _ key v Hlook. simpl in Hlook. by rewrite lookup_empty in Hlook.
  - done.
Qed.

Lemma reachable_cache_inv s : reachable execute s → cache_inv execute s.
Proof.
  induction 1 as [cfg w|c s _ IH]; [apply cache_inv_init|by apply run_call_cache_inv].
Qed.

(** An operation that never succeeds never fills the cache. *)
Lemma always_failing_miss p w data :
  (∀ n d, ∃ e, execute n d = Raise e) →
  cache_inv execute (p, w) →
  served_from_cache p data = false.
Proof.
  intros Hfail Hinv. unfold served_from_cache.
  destruct (cache_key data) as [key|]; [|by rewrite andb_false_r].
  destruct (_cache p !! key) as [v|] eqn:Hc.
  - destruct (Hinv key v Hc) as (n & d & _ & Hok & _).
    destruct (Hfail n d) as [e He]. congruence.
  - unfold contains. rewrite Hc. by rewrite andb_false_r.
Qed.

(** *** An engine that makes no attempt *)

Lemma retry_loop_config data key attempts :
  ∀ p w, config (fst (snd (retry_loop execute data key attempts (p, w)))) = config p.
Proof.
  induction attempts as [|attempt rest IH]; intros p w; [done|].
  destruct (execute (calls w) data) as [v|e] eqn:Hex.
  - rewrite (retry_loop_ok execute data key attempt rest p w v Hex). simpl.
    by destruct (cache_enabled (config p)).
  - destruct (decide (attempt = max_retries (config p) - 1)) as [Hlast|Hmore].
    + by rewrite (retry_loop_fail_last execute data key attempt rest p w e Hex Hlast).
    + rewrite (retry_loop_fail_more execute data key attempt rest p w e Hex Hmore).
      apply IH.
Qed.

Lemma process_config data s :
  config (fst (snd (process execute data s))) = config (fst s).
Proof.
  destruct s as [p w]. destruct (validate data) eqn:Hv.
  - destruct (validate_cache_key _ Hv) as [key Hk].
    destruct (served_from_cache p data) eqn:Hserved.
    + destruct (served_from_cache_true _ _ Hserved) as (Hen & key' & v & Hk' & Hc).
      by rewrite (process_hit execute data key' v p w Hv Hk' Hen Hc).
    + rewrite (process_miss execute data key p w Hv Hk Hserved).
      apply retry_loop_config.
  - unfold process, mbind, M_bind. by rewrite check_cache_invalid.
Qed.

Lemma run_call_config c s : config (fst (run_call execute c s)) = config (fst s).
Proof. destruct c as [data| |]; [apply process_config|done..]. Qed.

(** With [max_retries <= 0] nothing is ever stored. *)
Lemma reachable_no_attempt s :
  reachable execute s →
  max_retries (config (fst s)) ≤ 0 →
  _cache (fst s) = ∅.
Proof.
  induction 1 as [cfg w|c s Hreach IH]; [done|].
  rewrite run_call_config. intros HN. specialize (IH HN).
  destruct c as [data| |]; [|done..]. simpl.
  destruct s as [p w]. simpl in *.
  destruct (validate data) eqn:Hv.
  - rewrite process_no_attempt; [done..| |done].
    unfold served_from_cache, contains. rewrite IH.
    destruct (cache_key data); [by rewrite lookup_empty, andb_false_r|by rewrite andb_false_r].
  - unfold process, mbind, M_bind. by rewrite check_cache_invalid.
Qed.

End Invariant.

(** ** Coroutines and the batch *)

Section Batch.

Variable execute : Operation.

Lemma invoke_eq data p w :
  invoke execute data (p, w)
  = (Ok (execute (calls w) data),
     (p, {| calls := S (calls w); trace := trace w ++ [Exec (calls w) data] |})).
Proof. reflexivity. Qed.

Lemma on_result_eq key v p w :
  on_result key v (p, w)
  = (Ok v, (incr_processed (if cache_enabled (config p) then cache_store key v p else p), w)).
Proof. unfold on_result. msimpl. by destruct (cache_enabled (config p)). Qed.

Lemma on_exception_eq attempt e p w :
  on_exception attempt e (p, w)
  = if decide (attempt = max_retries (config p) - 1)
    then (Raise (RuntimeError
                   ("Processing failed after " +:+ pretty (max_retries (config p))
                    +:+ " attempts") (Some e)),
          (incr_failed p,
           {| calls := calls w; trace := trace w ++ [LogWarning (attempt + 1) e] |}))
    else (Ok tt,
          (p, {| calls := calls w;
                 trace := trace w ++ [LogWarning (attempt + 1) e; Sleep (2 ^ attempt)] |})).
Proof.
  unfold on_exception. msimpl.
  destruct (decide (attempt = max_retries (config p) - 1)) as [Hl|Hm].
  - by rewrite (proj2 (Z.eqb_eq _ _) Hl).
  - rewrite (proj2 (Z.eqb_neq _ _) Hm). simpl. by rewrite <- app_assoc.
Qed.

(** The three ways the part before the loop ends. *)
Lemma check_cache_outcome data p w :
  (validate data = false
   ∧ check_cache data (p, w) = (Raise (ValueError "Invalid input data structure"), (p, w)))
  ∨ (validate data = true
     ∧ ∃ key v, cache_key data = Some key
                ∧ _cache p !! key = Some v
                ∧ check_cache data (p, w)
                  = (Ok (inl v),
                     (incr_cache_hits p,
                      {| calls := calls w; trace := trace w ++ [LogDebug key] |})))
  ∨ (validate data = true
     ∧ ∃ key, cache_key data = Some key
              ∧ check_cache data (p, w) = (Ok (inr key), (p, w))).
Proof.
  destruct (validate data) eqn:Hv.
  - right. destruct (validate_cache_key _ Hv) as [key Hk].
    destruct (served_from_cache p data) eqn:Hserved.
    + left. split; [done|].
      destruct (served_from_cache_true _ _ Hserved) as (Hen & key' & v & Hk' & Hc).
      exists key', v. split; [done|]. split; [done|]. by apply check_cache_hit.
    + right. split; [done|]. exists key. split; [done|]. by apply check_cache_miss.
  - left. split; [done|]. by apply check_cache_invalid.
Qed.

(** Resuming a coroutine and then running it to its end is running
    it to its end: a schedule changes when the steps of a task run,
    not what the task does. *)
Lemma finish_next_attempt data key attempts s :
  finish execute (fst (next_attempt execute data key attempts s))
                 (snd (next_attempt execute data key attempts s))
  = retry_loop execute data key attempts s.
Proof.
  destruct s as [p w]. destruct attempts as [|attempt rest]; [done|].
  unfold next_attempt. simpl retry_loop. unfold mbind at 1, M_bind at 1.
  rewrite !invoke_eq. simpl.
  by destruct (execute (calls w) data).
Qed.

Lemma finish_resume c s :
  finish execute (fst (resume execute c s)) (snd (resume execute c s))
  = finish execute c s.
Proof.
  destruct c as [data|data key attempt rest [v|e]|data key rest|r]; simpl.
  - unfold process, mbind, M_bind.
    destruct (check_cache data s) as [[[v|key]|e] s']; [done| |done].
    rewrite finish_next_attempt. by destruct s'.
  - by destruct (on_result key v s).
  - unfold mbind, M_bind.
    by destruct (on_exception attempt e s) as [[[]|e'] s'].
  - apply finish_next_attempt.
  - done.
Qed.

(** With an empty schedule the batch is the records processed one
    after the other. *)
Lemma drain_start_cons data items s :
  drain execute (CStart <$> (data :: items)) s
  = let '(r, s') := process execute data s in
    let '(rs, s'') := drain execute (CStart <$> items) s' in
    (r :: rs, s'').
Proof. reflexivity. Qed.

End Batch.

Lemma processors_foldl_add rs :
  ∀ m, processors (foldl add_processor m rs) = processors m ++ rs.
Proof.
  induction rs as [|r rs IH]; intros m; simpl.
  - by rewrite app_nil_r.
  - rewrite IH. simpl. by rewrite <- app_assoc.
Qed.

(** ** A batch, step by step *)

Lemma extends_refl w : extends w w.
Proof. split; [lia|]. exists []. by rewrite app_nil_r. Qed.

Lemma extends_trans w1 w2 w3 : extends w1 w2 → extends w2 w3 → extends w1 w3.
Proof.
  intros [H1 [e1 T1]] [H2 [e2 T2]]. split; [lia|].
  exists (e1 ++ e2). by rewrite T2, T1, <- app_assoc.
Qed.

Lemma events_since_extends w0 w evs :
  trace w = trace w0 ++ evs → events_since w0 w = evs.
Proof. intros Ht. unfold events_since. by rewrite Ht, drop_app_length. Qed.

Lemma events_since_app w0 w w' evs :
  extends w0 w → trace w' = trace w ++ evs →
  events_since w0 w' = events_since w0 w ++ evs.
Proof.
  intros [_ [e0 T0]] T1. rewrite (events_since_extends w0 w e0 T0).
  apply events_since_extends. by rewrite T1, T0, <- app_assoc.
Qed.

Lemma events_since_mono w0 w w' ev :
  extends w0 w → extends w w' →
  ev ∈ events_since w0 w → ev ∈ events_since w0 w'.
Proof.
  intros H0 [_ [e1 T1]] Hev. rewrite (events_since_app w0 w w' e1 H0 T1).
  apply elem_of_app. by left.
Qed.

Lemma made_nil w0 w data : made w0 w data [].
Proof. split; [constructor|]. intros n Hn. by apply elem_of_nil in Hn. Qed.

Lemma made_mono w0 w w' data ns :
  extends w0 w → extends w w' → made w0 w data ns → made w0 w' data ns.
Proof.
  intros H0 H1 [Hs Hin]. split; [done|]. intros n Hn.
  destruct (Hin n Hn) as [Hev Hlt]. split; [by eapply events_since_mono|].
  destruct H1 as [Hc _]. lia.
Qed.

(** One more call, the one numbered [calls w]. *)
Lemma made_snoc w0 w data ns :
  extends w0 w → made w0 w data ns →
  made w0 {| calls := S (calls w); trace := trace w ++ [Exec (calls w) data] |}
       data (ns ++ [calls w]).
Proof.
  intros H0 [Hs Hin].
  set (w' := {| calls := S (calls w); trace := trace w ++ [Exec (calls w) data] |}).
  assert (Hev' : events_since w0 w' = events_since w0 w ++ [Exec (calls w) data]).
  { by apply events_since_app. }
  split.
  - apply StronglySorted_app_2; [|done|repeat constructor].
    intros x1 x2 Hx1 Hx2. apply list_elem_of_singleton in Hx2 as ->.
    destruct (Hin x1 Hx1) as [_ Hlt]. lia.
  - intros n Hn. rewrite Hev'. apply elem_of_app in Hn as [Hn|Hn].
    + destruct (Hin n Hn) as [Hev Hlt]. split; [|simpl; lia].
      apply elem_of_app. by left.
    + apply list_elem_of_singleton in Hn as ->. split.
      * apply elem_of_app. right. apply list_elem_of_here.
      * simpl. destruct H0 as [Hc _]. lia.
Qed.

Lemma made_last w0 w data ns n :
  made w0 w data (ns ++ [n]) → Exec n data ∈ events_since w0 w.
Proof.
  intros [_ Hin]. apply Hin, elem_of_app. right. apply list_elem_of_here.
Qed.

Lemma all_failed_snoc execute data ns n e :
  all_failed execute data ns → execute n data = Raise e →
  all_failed execute data (ns ++ [n]).
Proof.
  intros Hall He k Hk. apply elem_of_app in Hk as [Hk|Hk]; [by apply Hall|].
  apply list_elem_of_singleton in Hk as ->. eauto.
Qed.

Lemma contributions_insert ds :
  ∀ tasks i d c c',
    ds !! i = Some d → tasks !! i = Some c →
    contributions ds (<[i := c']> tasks)
    = contributions ds tasks - contributed d c + contributed d c'.
Proof.
  induction ds as [|d0 ds IH]; intros tasks i d c c' Hd Hc; [done|].
  destruct tasks as [|c0 tasks]; [done|].
  destruct i as [|i]; simpl in *.
  - injection Hd as ->. injection Hc as ->. lia.
  - rewrite (IH tasks i d c c' Hd Hc). lia.
Qed.

Lemma contributions_start ds : contributions ds (CStart <$> ds) = 0.
Proof.
  induction ds as [|d ds IH]; [done|].
  rewrite fmap_cons. simpl contributions. by rewrite IH.
Qed.

Lemma valid_count_cons d ds :
  valid_count (d :: ds) = (if validate d then 1 else 0) + valid_count ds.
Proof.
  unfold valid_count. rewrite filter_cons.
  destruct (decide (validate d = true)) as [Hv|Hv].
  - rewrite Hv. simpl length. lia.
  - apply not_true_is_false in Hv. rewrite Hv. lia.
Qed.

(** Open the slot of a record that passes validation, or not. *)
Ltac open_slot Hv :=
  cbv beta iota zeta delta [task_of slot_ok fst snd]; rewrite Hv.

Section BatchSteps.

Variable execute : Operation.

(** The records of the batch, the engine before it and the world
    before it. *)
Variable items : list Dict.
Variable p0 : FeatureProcessor.
Variable w0 : World.

Local Abbreviation N := (max_retries (config p0)).

Lemma slot_ok_mono w w' data r :
  extends w0 w → extends w w' →
  slot_ok execute p0 w0 w data r → slot_ok execute p0 w0 w' data r.
Proof.
  intros H0 H1. unfold slot_ok. destruct (validate data); [|done].
  intros [(ns & n & v & Hlen & Hmade & Hfail & Hok & ->)
         |[(key & v & Hk & -> & Hfrom)
          |[Hnone|(ns & n & e & Hlen & Hmade & Hfail & He & ->)]]].
  - left. exists ns, n, v. split_and!; try done. by eapply made_mono.
  - right; left. exists key, v. split_and!; try done.
    destruct Hfrom as [Hc|(n & data' & Hev & Hok & Hk')]; [by left|right].
    exists n, data'. split_and!; try done. by eapply events_since_mono.
  - right; right; left. done.
  - right; right; right. exists ns, n, e. split_and!; try done. by eapply made_mono.
Qed.

Lemma task_of_mono w w' data c :
  extends w0 w → extends w w' →
  task_of execute p0 w0 w data c → task_of execute p0 w0 w' data c.
Proof.
  intros H0 H1. destruct c as [d|d key attempt rest pending|d key rest|r]; simpl.
  - done.
  - intros (Hd & Hv & Hk & ns & n & Ha & Hrest & Hlen & Hmade & Hfail & Hp).
    split_and!; try done. exists ns, n. split_and!; try done. by eapply made_mono.
  - intros (Hd & Hv & Hk & ns & Hrest & Hlen & Hmade & Hfail).
    split_and!; try done. exists ns. split_and!; try done. by eapply made_mono.
  - by apply slot_ok_mono.
Qed.

(** A step that keeps the configuration, adds the events [evs], all of
    whose calls are on records of the batch, and stores nothing but an
    answer of the batch, keeps the batch's invariant. *)
Lemma batch_inv_step p w p' w' evs :
  batch_inv execute items p0 w0 (p, w) →
  config p' = config p →
  (calls w ≤ calls w')%nat →
  trace w' = trace w ++ evs →
  (∀ n d, Exec n d ∈ evs → d ∈ items) →
  (∀ key v, _cache p' !! key = Some v →
     _cache p !! key = Some v
     ∨ ∃ n data, Exec n data ∈ events_since w0 w'
                 ∧ execute n data = Ok v ∧ cache_key data = Some key) →
  batch_inv execute items p0 w0 (p', w').
Proof.
  intros (Hcfg & Hext & Hfrom & Hexecs) Hcfg' Hcalls Htrace Hevs Hcache.
  simpl in Hcfg, Hext, Hexecs.
  assert (Hstep : extends w w') by (split; [done|eauto]).
  split_and!; simpl.
  - congruence.
  - by eapply extends_trans.
  - intros key v Hc. destruct (Hcache key v Hc) as [Hold|Hnew]; [|by right].
    destruct (Hfrom key v Hold) as [H0|(n & data & Hev & Hok & Hk)]; [by left|right].
    exists n, data. split_and!; try done. by eapply events_since_mono.
  - intros n d. rewrite (events_since_app w0 w w' evs Hext Htrace).
    intros [Hev|Hev]%elem_of_app; [by eapply Hexecs|by eapply Hevs].
Qed.

(** The head of the loop, the attempts made so far being the calls
    [ns]. *)
Lemma next_attempt_step data ws K key ns p w :
  data ∈ items →
  validate data = true →
  cache_key data = Some key →
  batch_inv execute items p0 w0 (p, w) →
  extends ws w →
  made w0 w data ns →
  all_failed execute data ns →
  ((length ns < Z.to_nat N)%nat ∨ (ns = [] ∧ N ≤ 0)) →
  (1 ≤ N → counted (_metrics p) = K) →
  step_inv execute items p0 w0 data ws K
    (fst (next_attempt execute data key
            (Z.of_nat <$> seq (length ns) (Z.to_nat N - length ns)) (p, w)))
    (snd (next_attempt execute data key
            (Z.of_nat <$> seq (length ns) (Z.to_nat N - length ns)) (p, w))).
Proof.
  intros Hin Hv Hk Hinv Hws Hmade Hfail Hlen Hcount.
  pose proof Hinv as (Hcfg & Hext & _). simpl in Hcfg, Hext.
  destruct (Z.to_nat N - length ns)%nat as [|m] eqn:Hm.
  - (* no attempt is left: only at the start, with no attempt allowed *)
    destruct Hlen as [Hlen|[-> HN]]; [lia|]. simpl.
    split_and!; try done.
    + open_slot Hv. right; right; left. done.
    + intros HN'. lia.
  - destruct Hlen as [Hlen|[-> HN]]; [|simpl in Hm; lia].
    simpl seq. rewrite fmap_cons. simpl.
    set (w' := {| calls := S (calls w); trace := trace w ++ [Exec (calls w) data] |}).
    assert (Hstep : extends w w') by (split; simpl; [lia|eauto]).
    split_and!; simpl.
    + split_and!; try done. exists ns, (calls w). split_and!; try done.
      * do 2 f_equal. lia.
      * by apply made_snoc.
    + eapply (batch_inv_step p w p w' [Exec (calls w) data]); try done.
      * simpl. lia.
      * intros n d Hev. apply list_elem_of_singleton in Hev. by injection Hev as _ ->.
      * intros key' v' Hc. by left.
    + by eapply extends_trans.
    + intros HN. rewrite Z.sub_0_r. by apply Hcount.
Qed.

(** One scheduling step of a task keeps what the task and the batch
    keep true. *)
Lemma resume_step data ws K c s :
  data ∈ items →
  step_inv execute items p0 w0 data ws K c s →
  step_inv execute items p0 w0 data ws K
    (fst (resume execute c s)) (snd (resume execute c s)).
Proof.
  intros Hin (Htask & Hinv & Hws & Hcount). destruct s as [p w].
  pose proof Hinv as (Hcfg & Hext & Hfrom & Hexecs). simpl in Hcfg, Hext, Hws, Hcount.
  destruct c as [d|d key attempt rest [v|e]|d key rest|r]; simpl in Htask.
  - (* the start of the body *)
    subst d. simpl resume.
    destruct (check_cache_outcome data p w)
      as [[Hv ->]|[(Hv & key & v & Hk & Hc & ->)|(Hv & key & Hk & ->)]].
    + simpl. split_and!; try done.
      * by open_slot Hv.
      * simpl. rewrite Hv. simpl in Hcount. done.
    + set (w' := {| calls := calls w; trace := trace w ++ [LogDebug key] |}).
      assert (Hstep : extends w w') by (split; simpl; [lia|eauto]).
      simpl. split_and!.
      * open_slot Hv. right; left. exists key, v.
        split_and!; try done.
        destruct (Hfrom key v Hc) as [H0|(n & data' & Hev & Hok & Hk')]; [by left|right].
        exists n, data'. split_and!; try done. by eapply events_since_mono.
      * eapply (batch_inv_step p w _ w' [LogDebug key]); try done.
        -- intros n d Hev. apply list_elem_of_singleton in Hev. discriminate Hev.
        -- intros key' v' Hc'. by left.
      * by eapply extends_trans.
      * intros HN. specialize (Hcount HN). unfold counted in *. simpl in *.
        rewrite Hv. lia.
    + simpl fst. rewrite Hcfg, range_nat.
      pose proof (next_attempt_step data ws K key [] p w Hin Hv Hk Hinv Hws
                    (made_nil w0 w data)) as Hnext.
      simpl length in Hnext. rewrite Nat.sub_0_r in Hnext. apply Hnext.
      * intros n Hn. by apply elem_of_nil in Hn.
      * destruct (decide (N ≤ 0)); [right|left]; [done|lia].
      * intros HN. specialize (Hcount HN). simpl in Hcount. lia.
  - (* the call has returned a result *)
    destruct Htask as (-> & Hv & Hk & ns & n & Ha & Hrest & Hlen & Hmade & Hfail & Hp).
    simpl resume. rewrite on_result_eq. simpl.
    split_and!; try done.
    + open_slot Hv. left. exists ns, n, v. by split_and!.
    + eapply (batch_inv_step p w _ w []); try done.
      * by destruct (cache_enabled (config p)).
      * by rewrite app_nil_r.
      * intros k d Hev. by apply elem_of_nil in Hev.
      * intros key' v'. destruct (cache_enabled (config p)); simpl; [|by left].
        destruct (decide (key = key')) as [<-|Hne].
        -- rewrite lookup_insert_eq. intros [= <-]. right. exists n, data.
           split_and!; try done. by eapply made_last.
        -- rewrite lookup_insert_ne by done. by left.
    + intros HN. specialize (Hcount HN). unfold counted in *. simpl in *. rewrite Hv.
      destruct (cache_enabled (config p)); simpl; lia.
  - (* the call has raised *)
    destruct Htask as (-> & Hv & Hk & ns & n & Ha & Hrest & Hlen & Hmade & Hfail & Hp).
    simpl resume. rewrite on_exception_eq.
    destruct (decide (attempt = max_retries (config p) - 1)) as [Hl|Hm]; simpl.
    + set (w' := {| calls := calls w; trace := trace w ++ [LogWarning (attempt + 1) e] |}).
      assert (Hstep : extends w w') by (split; simpl; [lia|eauto]).
      split_and!.
      * open_slot Hv. right; right; right. exists ns, n, e.
        rewrite Hcfg in *. split_and!; try done; [lia|].
        by eapply made_mono.
      * eapply (batch_inv_step p w _ w' [LogWarning (attempt + 1) e]); try done.
        -- intros k d Hev. apply list_elem_of_singleton in Hev. discriminate Hev.
        -- intros key' v' Hc'. by left.
      * by eapply extends_trans.
      * intros HN. specialize (Hcount HN). unfold counted in *. simpl in *.
        rewrite Hv. lia.
    + set (w' := {| calls := calls w;
                    trace := trace w ++ [LogWarning (attempt + 1) e;
                                         Sleep (2 ^ attempt)] |}).
      assert (Hstep : extends w w') by (split; simpl; [lia|eauto]).
      rewrite Hcfg in Hm.
      split_and!.
      * simpl. split_and!; try done. exists (ns ++ [n]).
        rewrite length_app. simpl length. rewrite Nat.add_1_r.
        split_and!; try done; [lia| |].
        -- by eapply made_mono.
        -- by eapply all_failed_snoc.
      * eapply (batch_inv_step p w p w' [_; _]); try done.
        -- intros k d Hev. apply elem_of_cons in Hev as [Hev|Hev]; [discriminate Hev|].
           apply list_elem_of_singleton in Hev. discriminate Hev.
        -- intros key' v' Hc'. by left.
      * by eapply extends_trans.
      * done.
  - (* the sleep is over *)
    destruct Htask as (-> & Hv & Hk & ns & Hrest & Hlen & Hmade & Hfail).
    simpl resume. rewrite Hrest.
    apply next_attempt_step; try done; [by left|].
    intros HN. specialize (Hcount HN). simpl in Hcount. lia.
  - (* the task has returned *)
    simpl. by split_and!.
Qed.

(** Every step brings a task closer to its end. *)
Lemma steps_left_resume c s :
  config (fst s) = config p0 →
  (steps_left N (fst (resume execute c s)) < steps_left N c)%nat ∨ ∃ r, c = CDone r.
Proof.
  intros Hcfg. destruct s as [p w]. simpl in Hcfg.
  destruct c as [d|d key attempt rest [v|e]|d key rest|r]; [left..|right; eauto].
  - simpl resume.
    destruct (check_cache_outcome d p w)
      as [[Hv ->]|[(Hv & key & v & Hk & Hc & ->)|(Hv & key & Hk & ->)]];
      simpl; [lia..|].
    rewrite Hcfg, range_nat.
    destruct (Z.to_nat N) as [|m]; simpl; [lia|].
    rewrite length_fmap, length_seq. lia.
  - simpl resume. rewrite on_result_eq. simpl. lia.
  - simpl resume. rewrite on_exception_eq.
    destruct (decide (attempt = max_retries (config p) - 1)); simpl; lia.
  - simpl resume. destruct rest as [|a rest]; simpl; lia.
Qed.

(** Running a task to its end keeps them too. *)
Lemma finish_step data ws K :
  data ∈ items →
  ∀ n c s,
    (steps_left N c ≤ n)%nat →
    step_inv execute items p0 w0 data ws K c s →
    step_inv execute items p0 w0 data ws K
      (CDone (fst (finish execute c s))) (snd (finish execute c s)).
Proof.
  intros Hin. induction n as [|n IH]; intros c s Hn Hinv.
  - destruct c; simpl in Hn; try lia. exact Hinv.
  - destruct (steps_left_resume c s) as [Hlt|[r ->]].
    + apply Hinv.
    + rewrite <- finish_resume. apply IH; [lia|]. by apply resume_step.
    + exact Hinv.
Qed.

(** *** The schedule and the result list *)

Lemma tasks_mono w w' ds tasks :
  extends w0 w → extends w w' →
  Forall2 (task_of execute p0 w0 w) ds tasks →
  Forall2 (task_of execute p0 w0 w') ds tasks.
Proof.
  intros H0 H1 Hall. eapply Forall2_impl; [exact Hall|].
  intros d c. by apply task_of_mono.
Qed.

Lemma interleave_inv sched :
  ∀ tasks s,
    Forall2 (task_of execute p0 w0 (snd s)) items tasks →
    batch_inv execute items p0 w0 s →
    Forall2 (task_of execute p0 w0 (snd (snd (interleave execute sched tasks s))))
            items (fst (interleave execute sched tasks s))
    ∧ batch_inv execute items p0 w0 (snd (interleave execute sched tasks s))
    ∧ (1 ≤ N →
       counted (_metrics (fst (snd (interleave execute sched tasks s))))
       - contributions items (fst (interleave execute sched tasks s))
       = counted (_metrics (fst s)) - contributions items tasks).
Proof.
  induction sched as [|i sched IH]; intros tasks s Htasks Hinv; [done|].
  simpl. destruct (tasks !! i) as [c|] eqn:Hc; [|by apply IH].
  destruct (Forall2_lookup_r _ _ _ _ _ Htasks Hc) as (data & Hdata & Htask).
  assert (Hin : data ∈ items) by (by eapply list_elem_of_lookup_2).
  destruct (resume_step data (snd s)
              (counted (_metrics (fst s)) - contributed data c) c s Hin)
    as (Htask' & Hinv' & Hstep & Hcount').
  { split_and!; try done. apply extends_refl. }
  destruct (resume execute c s) as [c' s']. simpl in Htask', Hinv', Hstep, Hcount'.
  destruct (IH (<[i := c']> tasks) s') as (Hall & Hinv'' & Hcount''); [|done|].
  { rewrite <- (list_insert_id items i data Hdata).
    apply Forall2_insert; [|done].
    eapply tasks_mono; [|exact Hstep|exact Htasks]. apply Hinv. }
  split_and!; try done.
  intros HN. rewrite (Hcount'' HN), (contributions_insert items tasks i data c c' Hdata Hc).
  specialize (Hcount' HN). lia.
Qed.

Lemma drain_inv ds :
  ∀ tasks s,
    (∀ d, d ∈ ds → d ∈ items) →
    Forall2 (task_of execute p0 w0 (snd s)) ds tasks →
    batch_inv execute items p0 w0 s →
    Forall2 (slot_ok execute p0 w0 (snd (snd (drain execute tasks s))))
            ds (fst (drain execute tasks s))
    ∧ batch_inv execute items p0 w0 (snd (drain execute tasks s))
    ∧ extends (snd s) (snd (snd (drain execute tasks s)))
    ∧ (1 ≤ N →
       counted (_metrics (fst (snd (drain execute tasks s))))
       = counted (_metrics (fst s)) - contributions ds tasks + valid_count ds).
Proof.
  induction ds as [|data ds IH]; intros tasks s Hsub Htasks Hinv.
  - apply Forall2_nil_inv_l in Htasks as ->. simpl.
    split_and!; try done; [apply extends_refl|]. intros _. unfold valid_count. simpl. lia.
  - apply Forall2_cons_inv_l in Htasks as (c & tasks' & Htask & Htasks & ->).
    assert (Hin : data ∈ items) by (apply Hsub, list_elem_of_here).
    destruct (finish_step data (snd s)
                (counted (_metrics (fst s)) - contributed data c) Hin
                (steps_left N c) c s)
      as (Hslot & Hinv' & Hstep & Hcount'); [lia| |].
    { split_and!; try done. apply extends_refl. }
    simpl drain.
    destruct (finish execute c s) as [r s']. simpl in Hslot, Hinv', Hstep, Hcount'.
    destruct (IH tasks' s') as (Hall & Hinv'' & Hstep' & Hcount'').
    { intros d Hd. by apply Hsub, list_elem_of_further. }
    { eapply tasks_mono; [|exact Hstep|exact Htasks]. apply Hinv. }
    { done. }
    destruct (drain execute tasks' s') as [rs s'']. simpl in *.
    split_and!; try done.
    + constructor; [|done]. eapply slot_ok_mono; [|exact Hstep'|exact Hslot]. apply Hinv'.
    + by eapply extends_trans.
    + intros HN. rewrite (Hcount'' HN), valid_count_cons.
      specialize (Hcount' HN). lia.
Qed.

End BatchSteps.

(** A batch on the engine [p0] in the world [w0], under any schedule:
    every slot is the slot of its record, the batch's invariant holds
    at the end, and the engine has counted one outcome per record that
    passes validation. *)
Lemma gather_batch (execute : Operation) (sched : list nat) (items : list Dict)
    (p0 : FeatureProcessor) (w0 : World) :
  ∃ slots p' w',
    gather execute sched (CStart <$> items) (p0, w0) = (slots, (p', w'))
    ∧ Forall2 (slot_ok execute p0 w0 w') items slots
    ∧ batch_inv execute items p0 w0 (p', w')
    ∧ (1 ≤ max_retries (config p0) →
       counted (_metrics p') = counted (_metrics p0) + valid_count items).
Proof.
  assert (Hinit : batch_inv execute items p0 w0 (p0, w0)).
  { split_and!; simpl; [done|apply extends_refl|by left|].
    intros n d. rewrite (events_since_extends w0 w0 []) by (by rewrite app_nil_r).
    by intros Hev%elem_of_nil. }
  destruct (interleave_inv execute items p0 w0 sched (CStart <$> items) (p0, w0))
    as (Htasks & Hinv & Hcount); [|done|].
  { apply Forall2_fmap_r, Forall_Forall2_diag, Forall_forall. by intros. }
  unfold gather.
  destruct (interleave execute sched (CStart <$> items) (p0, w0)) as [tasks s1].
  simpl in Htasks, Hinv, Hcount.
  destruct (drain_inv execute items p0 w0 items tasks s1)
    as (Hslots & Hinv' & _ & Hcount'); [done..|].
  destruct (drain execute tasks s1) as [slots [p' w']]. simpl in *.
  exists slots, p', w'. split_and!; try done.
  intros HN. rewrite (Hcount' HN). specialize (Hcount HN).
  rewrite contributions_start in Hcount. lia.
Qed.

(** ** Traces of the retry loop *)

Lemma sleeps_app evs1 evs2 : sleeps (evs1 ++ evs2) = sleeps evs1 ++ sleeps evs2.
Proof. apply omap_app. Qed.

Lemma executions_app evs1 evs2 :
  executions (evs1 ++ evs2) = executions evs1 ++ executions evs2.
Proof. apply omap_app. Qed.

Lemma sleeps_backoff n0 data err a k :
  sleeps (flat_map (backoff_events n0 data err) (seq a k))
  = (λ j : nat, 2 ^ Z.of_nat j) <$> seq a k.
Proof.
  revert a. induction k as [|k IH]; intros a; [done|].
  simpl seq. simpl flat_map. rewrite fmap_cons, <- IH. reflexivity.
Qed.

Lemma executions_backoff n0 data err a k :
  executions (flat_map (backoff_events n0 data err) (seq a k))
  = (λ j : nat, ((n0 + j)%nat, data)) <$> seq a k.
Proof.
  revert a. induction k as [|k IH]; intros a; [done|].
  simpl seq. simpl flat_map. rewrite fmap_cons, <- IH. reflexivity.
Qed.

Lemma flat_map_seq_ext {A} (g1 g2 : nat → list A) a k :
  (∀ j, (a ≤ j < a + k)%nat → g1 j = g2 j) →
  flat_map g1 (seq a k) = flat_map g2 (seq a k).
Proof.
  revert a. induction k as [|k IH]; intros a Hext; [done|].
  simpl. rewrite Hext by lia. f_equal. apply IH. intros j Hj. apply Hext. lia.
Qed.

Lemma pow2_range (k : nat) :
  (λ j : nat, 2 ^ Z.of_nat j) <$> seq 0 k = Z.pow 2 <$> range (Z.of_nat k).
Proof.
  rewrite range_nat, Nat2Z.id, <- list_fmap_compose. reflexivity.
Qed.

(** * The claims *)

(** C3.  A record that misses one of the fields id, timestamp, payload
    makes [process] fail with the validation error; the operation is not
    called and the processor (cache and the three counters) and the
    world are exactly what they were. *)
Theorem process_invalid_record (execute : Operation) (data : Dict) p w :
  data !! "id" = None ∨ data !! "timestamp" = None ∨ data !! "payload" = None →
  process execute data (p, w)
  = (Raise (ValueError "Invalid input data structure"), (p, w)).
Proof.
  intros Hmissing%validate_false. unfold process.
  unfold mbind, M_bind. by rewrite check_cache_invalid.
Qed.

(** An engine with [max_retries = 0], in any state it reaches from its
    construction, never enters the body of the attempt loop: a call on
    a valid record ends in the [raise] written after the loop, with no
    call of the operation, no cause and no counter touched. *)
Lemma process_zero_retries (execute : Operation) (data : Dict) (s : St) :
  reachable execute s →
  max_retries (config (fst s)) = 0 →
  validate data = true →
  process execute data s
  = (Raise (RuntimeError "Unexpected processing failure" None), s).
Proof.
  intros Hreach HN Hv. destruct s as [p w]. simpl in HN.
  pose proof (reachable_no_attempt execute _ Hreach) as Hempty. simpl in Hempty.
  apply process_no_attempt; [done| |lia].
  unfold served_from_cache, contains. rewrite Hempty by lia.
  destruct (cache_key data); [by rewrite lookup_empty, andb_false_r|by rewrite andb_false_r].
Qed.

(** C2.  With [max_retries = N >= 1], a valid record that the cache
    does not answer and an operation that fails on each of the [N]
    attempts of the call, [process] calls the operation exactly [N]
    times, adds exactly one to the failed counter, leaves the cache, the
    other two counters and the configuration alone and fails with the
    processing error whose cause is the failure of the last attempt.
    The engine is in any state: whatever it cached or counted before. *)
Theorem process_retry_exhaustion (execute : Operation) (data : Dict) p w (N : nat) :
  (1 ≤ N)%nat →
  max_retries (config p) = Z.of_nat N →
  validate data = true →
  served_from_cache p data = false →
  (∀ j, (j < N)%nat → ∃ e, execute (calls w + j)%nat data = Raise e) →
  ∃ e_last p' w' events,
    execute (calls w + (N - 1))%nat data = Raise e_last
    ∧ process execute data (p, w)
      = (Raise (RuntimeError
                  ("Processing failed after " +:+ pretty (Z.of_nat N) +:+ " attempts")
                  (Some e_last)),
         (p', w'))
    ∧ trace w' = trace w ++ events
    ∧ executions events = (λ j : nat, ((calls w + j)%nat, data)) <$> seq 0 N
    ∧ calls w' = (calls w + N)%nat
    ∧ failed (_metrics p') = failed (_metrics p) + 1
    ∧ processed (_metrics p') = processed (_metrics p)
    ∧ cache_hits (_metrics p') = cache_hits (_metrics p)
    ∧ _cache p' = _cache p
    ∧ config p' = config p.
Proof.
  intros HN Hmax Hv Hmiss Hfail.
  destruct N as [|f]; [lia|].
  set (err := λ j : nat,
         match execute (calls w + j)%nat data with
         | Raise e => e
         | Ok _ => KeyError ""
         end).
  assert (Herr : ∀ j, (j < S f)%nat → execute (calls w + j)%nat data = Raise (err j)).
  { intros j Hj. destruct (Hfail j Hj) as [e He]. unfold err. by rewrite He. }
  eexists (err f), _, _, _.
  split; [replace (S f - 1)%nat with f by lia; apply Herr; lia|].
  split; [rewrite <- Hmax; by apply process_exhausted|].
  split; [reflexivity|].
  split.
  { rewrite executions_app, executions_backoff, seq_S, fmap_app. reflexivity. }
  done.
Qed.

(** C7.  One call of [process] with [max_retries = N] in which the
    first [f] attempts fail (and attempt [f], if there is one, succeeds):
    the failed attempt of index [i] is followed by a sleep of [2 ^ i]
    exactly when [i < N - 1], so nothing is slept after the last
    attempt, and the sleeps of the call are [1, 2, 4, ...] in that
    order, one per failed attempt that is not the last. *)
Theorem backoff_schedule (execute : Operation) (data : Dict) p w
    (err : nat → PyExn) (f : nat) :
  let N := max_retries (config p) in
  validate data = true →
  served_from_cache p data = false →
  Z.of_nat f ≤ N →
  (∀ j, (j < f)%nat → execute (calls w + j)%nat data = Raise (err j)) →
  (Z.of_nat f < N → ∃ v, execute (calls w + f)%nat data = Ok v) →
  ∃ r p' w' events,
    process execute data (p, w) = (r, (p', w'))
    ∧ trace w' = trace w ++ events
    ∧ events
      = flat_map
          (λ i : nat,
             [Exec (calls w + i) data; LogWarning (Z.of_nat i + 1) (err i)]
             ++ (if bool_decide (Z.of_nat i < N - 1)
                 then [Sleep (2 ^ Z.of_nat i)] else []))
          (seq 0 f)
        ++ (if bool_decide (Z.of_nat f < N) then [Exec (calls w + f) data] else [])
    ∧ sleeps events = Z.pow 2 <$> range (Z.min (Z.of_nat f) (N - 1)).
Proof.
  intros N Hv Hmiss Hle Hfail Hnext.
  destruct (decide (Z.of_nat f < N)) as [Hlt|Hge].
  - (* attempt [f] succeeds *)
    destruct (Hnext Hlt) as [v Hok].
    destruct (process_succeeds_after execute data p w err f v Hv Hmiss Hlt Hfail Hok)
      as (key & _ & Hrun).
    eexists _, _, _, _. split; [exact Hrun|]. split; [reflexivity|].
    rewrite bool_decide_eq_true_2 by done.
    split.
    + f_equal. apply flat_map_seq_ext. intros i Hi.
      rewrite bool_decide_eq_true_2 by lia. reflexivity.
    + rewrite sleeps_app, sleeps_backoff. simpl. rewrite app_nil_r.
      rewrite Z.min_l by lia. apply pow2_range.
  - assert (HNf : N = Z.of_nat f) by lia.
    destruct f as [|f].
    + (* no attempt at all *)
      eexists _, _, _, []. split; [by apply process_no_attempt; [| |lia]|].
      simpl. rewrite app_nil_r, bool_decide_eq_false_2 by done.
      rewrite Z.min_r by lia. rewrite range_nat.
      replace (Z.to_nat (N - 1)) with 0%nat by lia. done.
    + (* the last attempt fails too *)
      eexists _, _, _, _.
      split; [apply (process_exhausted execute data p w err f Hv Hmiss HNf Hfail)|].
      split; [reflexivity|].
      rewrite bool_decide_eq_false_2 by done. rewrite app_nil_r.
      split.
      * rewrite seq_S, flat_map_app. simpl. rewrite app_nil_r. f_equal.
        -- apply flat_map_seq_ext. intros i Hi.
           rewrite bool_decide_eq_true_2 by lia. reflexivity.
        -- rewrite bool_decide_eq_false_2 by lia. reflexivity.
      * rewrite sleeps_app, sleeps_backoff. simpl. rewrite app_nil_r.
        rewrite Z.min_r by lia. rewrite pow2_range. do 2 f_equal. lia.
Qed.

(** C10.  [clear_cache] leaves the three counters as they were, and
    [get_metrics] returns them and leaves the processor (cache and
    counters) and the world as they were. *)
Theorem clear_and_metrics_frame p w :
  _metrics (fst (snd (clear_cache (p, w)))) = _metrics p
  ∧ _cache (fst (snd (clear_cache (p, w)))) = ∅
  ∧ get_metrics (p, w) = (Ok (_metrics p), (p, w)).
Proof. by split_and!. Qed.

(** C4.  With caching enabled and the operation succeeding, two calls
    of [process] in a row on records with the same id and the same
    timestamp return the same result; the second call does not call the
    operation, adds exactly one to the cache-hit counter and leaves the
    processed counter alone.  The operation succeeding is one of the
    attempts of the first call answering: attempt [f], which the retry
    count allows ([f < max_retries]), after [f] attempts that failed. *)
Theorem process_twice_cached (execute : Operation) (data1 data2 : Dict) p w (f : nat) :
  cache_enabled (config p) = true →
  Z.of_nat f < max_retries (config p) →
  (∀ j, (j < f)%nat → ∃ e, execute (calls w + j)%nat data1 = Raise e) →
  (∃ v, execute (calls w + f)%nat data1 = Ok v) →
  validate data1 = true →
  validate data2 = true →
  data1 !! "id" = data2 !! "id" →
  data1 !! "timestamp" = data2 !! "timestamp" →
  ∃ r p1 w1 p2 w2 events,
    process execute data1 (p, w) = (Ok r, (p1, w1))
    ∧ process execute data2 (p1, w1) = (Ok r, (p2, w2))
    ∧ calls w2 = calls w1
    ∧ trace w2 = trace w1 ++ events
    ∧ executions events = []
    ∧ cache_hits (_metrics p2) = cache_hits (_metrics p1) + 1
    ∧ processed (_metrics p2) = processed (_metrics p1).
Proof.
  intros Hen HN Hfail [v Hok] Hv1 Hv2 Hid Hts.
  destruct (validate_cache_key _ Hv1) as [key Hk1].
  assert (Hk2 : cache_key data2 = Some key).
  { unfold cache_key in *. by rewrite <- Hid, <- Hts. }
  destruct (served_from_cache p data1) eqn:Hserved.
  - (* the first call is itself a hit *)
    destruct (served_from_cache_true _ _ Hserved) as (_ & key' & v' & Hk' & Hc).
    assert (key' = key) as -> by congruence.
    eexists v', _, _, _, _, _.
    split; [by apply process_hit|].
    split; [by apply process_hit|].
    by split_and!.
  - (* the first call runs the operation and stores the result *)
    set (err := λ j : nat,
           match execute (calls w + j)%nat data1 with
           | Raise e => e
           | Ok _ => KeyError ""
           end).
    assert (Herr : ∀ j, (j < f)%nat → execute (calls w + j)%nat data1 = Raise (err j)).
    { intros j Hj. destruct (Hfail j Hj) as [e He]. unfold err. by rewrite He. }
    destruct (process_succeeds_after execute data1 p w err f v)
      as (key' & Hk' & Hrun); [done..|].
    assert (key' = key) as -> by congruence.
    rewrite Hen in Hrun.
    eexists v, _, _, _, _, _.
    split; [exact Hrun|].
    split; [apply process_hit; [done|done|done|apply lookup_insert_eq]|].
    by split_and!.
Qed.


(** C9.  A manager to which [first] and then [others] were added
    processes every record of a batch on [first], under every schedule:
    slot [i] is the slot that [first] (its cache, its retry count) gives
    record [i]; every call of the operation that the batch makes is on a
    record of the batch; [first] keeps its configuration and, when it
    has an attempt to make, its counters count one outcome more for
    each record that passes validation; and every other processor
    object is left as it was, cache and counters.  (An entry of [others]
    that is [first] added once more is no other processor: it is the
    object the batch runs on.) *)
Theorem process_batch_first_processor (execute : Operation) (sched : list nat)
    (first : nat) (others : list nat) (items : list Dict)
    (h : nat → FeatureProcessor) (w : World) :
  let m := foldl add_processor FeatureManager_init (first :: others) in
  ∃ slots h' w' evs,
    process_batch execute sched m items h w = (Ok slots, (h', w'))
    ∧ trace w' = trace w ++ evs
    ∧ Forall2 (slot_ok execute (h first) w w') items slots
    ∧ (∀ n d, Exec n d ∈ evs → d ∈ items)
    ∧ config (h' first) = config (h first)
    ∧ (1 ≤ max_retries (config (h first)) →
       counted (_metrics (h' first))
       = counted (_metrics (h first))
         + Z.of_nat (length (filter (λ d, validate d = true) items)))
    ∧ ∀ other, other ≠ first → h' other = h other.
Proof.
  intros m. unfold process_batch.
  assert (Hm : processors m = first :: others).
  { unfold m. by rewrite processors_foldl_add. }
  rewrite Hm.
  destruct (gather_batch execute sched items (h first) w)
    as (slots & p' & w' & Hrun & Hslots & (Hcfg & [_ [evs Htrace]] & _ & Hexecs) & Hcount).
  simpl in Hcfg, Htrace, Hexecs. rewrite Hrun.
  rewrite (events_since_extends w w' evs Htrace) in Hexecs.
  eexists slots, _, w', evs. split; [reflexivity|]. split; [exact Htrace|].
  split; [exact Hslots|]. split; [exact Hexecs|].
  rewrite fn_lookup_insert. split; [exact Hcfg|]. split; [exact Hcount|].
  intros other Hne. by apply fn_lookup_insert_ne.
Qed.

Lemma is_config_field_spec k : is_config_field k = true ↔ k ∈ config_fields.
Proof.
  unfold is_config_field. rewrite existsb_exists. split.
  - intros (x & Hin%list_elem_of_In & ->%String.eqb_eq). done.
  - intros Hin. exists k. split; [by apply list_elem_of_In|apply String.eqb_refl].
Qed.

Lemma unexpected_keyword_found (kwargs : list (string * PyVal)) k v :
  (k, v) ∈ kwargs → k ∉ config_fields →
  ∃ k', unexpected_keyword kwargs = Some k' ∧ k' ∉ config_fields.
Proof.
  intros Hin Hk. induction kwargs as [|[k0 v0] kwargs IH]; [by inversion Hin|].
  simpl. destruct (is_config_field k0) eqn:Hf.
  - apply IH. apply elem_of_cons in Hin as [[= -> ->]|Hin]; [|done].
    by apply is_config_field_spec in Hf.
  - exists k0. split; [done|]. intros Hin0%is_config_field_spec. congruence.
Qed.

(** C6 (amended).  Building an engine from a mapping that has a key
    which is not a configuration field fails with the configuration
    error (Python's [TypeError]) and builds no engine, so before any
    record is processed. *)
Theorem create_feature_processor_unknown_field (kwargs : list (string * PyVal)) k v :
  (k, v) ∈ kwargs →
  k ∉ config_fields →
  ∃ k', (k' ∉ config_fields)
    ∧ create_feature_processor (Some kwargs)
      = Some (Raise (TypeError (unexpected_keyword_message k'))).
Proof.
  intros Hin Hk.
  destruct (unexpected_keyword_found kwargs k v Hin Hk) as (k' & Hun & Hk').
  exists k'. split; [done|].
  destruct kwargs as [|kv kwargs]; [by inversion Hin|].
  unfold create_feature_processor, FeatureConfig_init. by rewrite Hun.
Qed.

(** C8.  Every operation of the engine (a [process] call, clearing the
    cache, reading the metrics) preserves the cache invariant: each key
    of the cache maps to the value that an earlier, successful call of
    the operation on a record with that key returned; a failure is
    never stored. *)
Theorem cache_invariant_preserved (execute : Operation) (c : EngineCall) (s : St) :
  cache_inv execute s → cache_inv execute (run_call execute c s).
Proof. apply run_call_cache_inv. Qed.

(** * The claims on concrete engines *)

(** The tests of the repository.  A valid record is processed at the
    first attempt and the result echoes the payload. *)
Example test_process_valid_data :
  ∃ processed_at config s',
    process builtin_operation sample_data (fresh_processor 2, World_init)
    = (Ok (VDict [("success", VBool true);
                  ("data", VDict [("key", VStr "value")]);
                  ("processed_at", processed_at);
                  ("config", config)]), s')
    ∧ calls (snd s') = 1%nat.
Proof. eexists _, _, _. split; vm_compute; reflexivity. Qed.

(** A second call on the same record is a cache hit and returns the
    same result. *)
Example test_cache_functionality :
  let p := fresh_processor 2 in
  let '(result1, s1) := process builtin_operation sample_data (p, World_init) in
  let '(result2, s2) := process builtin_operation sample_data s1 in
  result1 = result2
  ∧ fst (get_metrics s2)
    = Ok {| processed := 1; failed := 0; cache_hits := 1 |}.
Proof. vm_compute. done. Qed.

(** [test_process_batch], under the schedule that starts both tasks
    before either gets its result: both run the operation. *)
Example test_process_batch :
  let m := add_processor FeatureManager_init 0%nat in
  ∃ r1 r2 h' w',
    process_batch builtin_operation [0; 1; 0; 1]%nat m [sample_data; sample_data]
      fresh_heap World_init
    = (Ok [Ok r1; Ok r2], (h', w'))
    ∧ _metrics (h' 0%nat) = {| processed := 2; failed := 0; cache_hits := 0 |}.
Proof. eexists _, _, _, _. split; [vm_compute; reflexivity|]. vm_compute. done. Qed.

(** C3 on the invalid record of the tests. *)
Lemma process_invalid_record_witness :
  invalid_data !! "timestamp" = None
  ∧ process always_failing invalid_data (fresh_processor 2, World_init)
    = (Raise (ValueError "Invalid input data structure"),
       (fresh_processor 2, World_init)).
Proof.
  split; [reflexivity|].
  apply (process_invalid_record always_failing invalid_data).
  right; left. reflexivity.
Defined.

(** C1.  The code at [max_retries = 0], on a valid record and with an
    operation that would fail: the operation is called zero times, not
    once; the call ends in the [raise] after the loop, whose error has
    no cause, and the failed counter is not incremented; processor and
    world are what they were.  With [max_retries = 1] the same record
    and operation give one call, the error that wraps the call's
    failure and a failed counter of one. *)
Theorem process_zero_retries_never_calls :
  max_retries (config (fresh_processor 0)) = 0
  ∧ validate sample_data = true
  ∧ (∀ n, ∃ e, always_failing n sample_data = Raise e)
  ∧ process always_failing sample_data (fresh_processor 0, World_init)
    = (Raise (RuntimeError "Unexpected processing failure" None),
       (fresh_processor 0, World_init))
  ∧ executions
      (trace (snd (snd (process always_failing sample_data
                          (fresh_processor 0, World_init))))) = []
  ∧ failed (_metrics (fst (snd (process always_failing sample_data
                                  (fresh_processor 0, World_init))))) = 0
  ∧ ∃ s1,
      process always_failing sample_data (fresh_processor 1, World_init)
      = (Raise (RuntimeError "Processing failed after 1 attempts"
                  (Some (OtherException "ConnectionError" "0"))), s1)
      ∧ executions (trace (snd s1)) = [(0%nat, sample_data)]
      ∧ failed (_metrics (fst s1)) = 1.
Proof.
  split; [reflexivity|]. split; [reflexivity|].
  split; [intros n; eexists; reflexivity|].
  split; [reflexivity|]. split; [reflexivity|]. split; [reflexivity|].
  eexists. split; [reflexivity|]. split; reflexivity.
Qed.

(** C2 on an engine that has processed and cached a record before: the
    operation answers the first call and fails from then on. *)
Lemma process_retry_exhaustion_witness :
  let s1 := snd (process (failing_after 1) sample_data (fresh_processor 2, World_init)) in
  processed (_metrics (fst s1)) = 1
  ∧ is_Some (_cache (fst s1) !! "test-123:1234567890")
  ∧ calls (snd s1) = 1%nat
  ∧ ∃ e p' w',
      process (failing_after 1) late_data (fst s1, snd s1)
      = (Raise (RuntimeError "Processing failed after 2 attempts" (Some e)), (p', w'))
      ∧ failing_after 1 2%nat late_data = Raise e
      ∧ calls w' = 3%nat
      ∧ failed (_metrics p') = 1
      ∧ processed (_metrics p') = 1
      ∧ _cache p' = _cache (fst s1).
Proof.
  intros s1. split; [reflexivity|]. split; [vm_compute; eauto|]. split; [reflexivity|].
  destruct (process_retry_exhaustion (failing_after 1) late_data (fst s1) (snd s1) 2)
    as (e & p' & w' & events & Hlast & Hrun & _ & _ & Hcalls & Hfailed & Hproc & _
        & Hcache & _).
  - lia.
  - reflexivity.
  - reflexivity.
  - reflexivity.
  - intros j Hj. destruct j as [|[|j]]; [eexists; reflexivity|eexists; reflexivity|lia].
  - exists e, p', w'. split; [exact Hrun|]. split; [exact Hlast|].
    split; [exact Hcalls|]. split; [exact Hfailed|]. split; [exact Hproc|]. exact Hcache.
Defined.

(** C7 with four attempts allowed, of which the first two fail: the
    sleeps are 1 and 2. *)
Lemma backoff_schedule_witness :
  ∃ r p' w' events,
    process (flaky_operation 2) sample_data (fresh_processor 4, World_init) = (r, (p', w'))
    ∧ trace w' = events
    ∧ sleeps events = [1; 2].
Proof.
  destruct (backoff_schedule (flaky_operation 2) sample_data
              (fresh_processor 4) World_init flaky_error 2)
    as (r & p' & w' & events & Hrun & Htrace & _ & Hsleeps).
  - reflexivity.
  - reflexivity.
  - simpl. lia.
  - intros j Hj. destruct j as [|[|j]]; [reflexivity|reflexivity|lia].
  - intros _. eexists. reflexivity.
  - exists r, p', w', events. split; [exact Hrun|]. split; [exact Htrace|].
    exact Hsleeps.
Defined.

(** C4 on the record of the tests, with an operation whose first call
    fails: the first call of [process] succeeds at its second attempt. *)
Lemma process_twice_cached_witness :
  ∃ r s1 s2,
    process (flaky_operation 1) sample_data (fresh_processor 2, World_init) = (Ok r, s1)
    ∧ process (flaky_operation 1) other_payload s1 = (Ok r, s2)
    ∧ calls (snd s1) = 2%nat
    ∧ calls (snd s2) = calls (snd s1)
    ∧ cache_hits (_metrics (fst s2)) = cache_hits (_metrics (fst s1)) + 1.
Proof.
  destruct (process_twice_cached (flaky_operation 1) sample_data other_payload
              (fresh_processor 2) World_init 1)
    as (r & p1 & w1 & p2 & w2 & events & H1 & H2 & Hcalls & _ & _ & Hhits & _).
  - reflexivity.
  - simpl. lia.
  - intros j Hj. destruct j as [|j]; [eexists; reflexivity|lia].
  - eexists. reflexivity.
  - reflexivity.
  - reflexivity.
  - reflexivity.
  - reflexivity.
  - exists r, (p1, w1), (p2, w2). split; [exact H1|]. split; [exact H2|].
    split; [|split; [exact Hcalls|exact Hhits]].
    vm_compute in H1. by injection H1 as _ _ <-.
Defined.

(** Where the loop has no attempt to make ([max_retries = 0]) the
    operation is not invoked at all, so it cannot succeed: both calls
    end in the [raise] after the loop and nothing is cached. *)
Remark process_twice_zero_retries :
  cache_enabled (config (fresh_processor 0)) = true
  ∧ validate sample_data = true
  ∧ (∀ n, ∃ v, builtin_operation n sample_data = Ok v)
  ∧ let '(r1, s1) := process builtin_operation sample_data
                       (fresh_processor 0, World_init) in
    let '(r2, s2) := process builtin_operation sample_data s1 in
    r1 = Raise (RuntimeError "Unexpected processing failure" None)
    ∧ r2 = Raise (RuntimeError "Unexpected processing failure" None)
    ∧ cache_hits (_metrics (fst s2)) ≠ cache_hits (_metrics (fst s1)) + 1.
Proof.
  split; [reflexivity|]. split; [reflexivity|].
  split; [intros n; eexists; reflexivity|].
  vm_compute. split; [reflexivity|]. split; [reflexivity|]. discriminate.
Qed.


(** A batch in which one record exhausts its single attempt: its slot
    holds the processing error that wraps the failure of its own call,
    call 0, and the slots of its siblings are what they are without
    it. *)
Example test_batch_isolates_failure :
  ∃ v0 h' w',
    process_batch (flaky_operation 1) [2; 0; 1; 0; 2]%nat one_engine
      [sample_data; invalid_data; late_data] (λ _, fresh_processor 1) World_init
    = (Ok [Ok v0;
           Raise (ValueError "Invalid input data structure");
           Raise (RuntimeError "Processing failed after 1 attempts"
                    (Some (flaky_error 0)))],
       (h', w'))
    ∧ executions (trace w') = [(0%nat, late_data); (1%nat, sample_data)]
    ∧ _metrics (h' 0%nat) = {| processed := 1; failed := 1; cache_hits := 0 |}.
Proof.
  eexists _, _, _. split; [vm_compute; reflexivity|]. split; vm_compute; reflexivity.
Qed.

(** C9 on a manager with three processors of different retry counts:
    the two valid records of the batch are counted by the first, and
    the other two are what they were. *)
Lemma process_batch_first_processor_witness :
  let m := foldl add_processor FeatureManager_init [0; 1; 2]%nat in
  let h := λ r : nat, fresh_processor (Z.of_nat r + 1) in
  ∃ slots h' w',
    process_batch builtin_operation [1; 2; 0]%nat m
      [sample_data; invalid_data; late_data] h World_init
    = (Ok slots, (h', w'))
    ∧ counted (_metrics (h' 0%nat)) = 2
    ∧ h' 1%nat = h 1%nat
    ∧ h' 2%nat = h 2%nat.
Proof.
  intros m h.
  destruct (process_batch_first_processor builtin_operation [1; 2; 0]%nat 0%nat
              [1; 2]%nat [sample_data; invalid_data; late_data] h World_init)
    as (slots & h' & w' & evs & Hrun & _ & _ & _ & _ & Hcount & Hothers).
  exists slots, h', w'. split; [exact Hrun|].
  split; [apply Hcount; simpl; lia|].
  split; apply Hothers; discriminate.
Defined.

(** C6 (amended) on a mapping with one unknown key. *)
Lemma create_feature_processor_unknown_field_witness :
  ("bogus", VNone) ∈ [("max_retries", VInt 1); ("bogus", VNone)]
  ∧ ("bogus" ∉ config_fields)
  ∧ ∃ k', create_feature_processor (Some [("max_retries", VInt 1); ("bogus", VNone)])
          = Some (Raise (TypeError (unexpected_keyword_message k'))).
Proof.
  assert (Hin : ("bogus", VNone) ∈ [("max_retries", VInt 1); ("bogus", VNone)]).
  { apply list_elem_of_In. simpl. right. left. reflexivity. }
  assert (Hk : "bogus" ∉ config_fields).
  { intros H%list_elem_of_In. simpl in H.
    destruct H as [H|[H|[H|[H|[]]]]]; discriminate H. }
  split; [exact Hin|]. split; [exact Hk|].
  destruct (create_feature_processor_unknown_field
              [("max_retries", VInt 1); ("bogus", VNone)] "bogus" VNone Hin Hk)
    as (k' & _ & Hrun).
  exists k'. exact Hrun.
Defined.

(** C6 as stated fails: a mapping with a negative retry count builds an
    engine, and the engine holds the negative count. *)
Lemma negative_retry_count_accepted :
  ∃ p, create_feature_processor (Some [("max_retries", VInt (-1))]) = Some (Ok p)
       ∧ max_retries (config p) = -1
       ∧ max_retries (config p) < 0.
Proof. eexists. split; [reflexivity|]. simpl. split; [reflexivity|lia]. Qed.

(** C8 on a fresh engine and a [process] call. *)
Lemma cache_invariant_preserved_witness :
  cache_inv builtin_operation (fresh_processor 2, World_init)
  ∧ cache_inv builtin_operation
      (run_call builtin_operation (CallProcess sample_data)
         (fresh_processor 2, World_init)).
Proof.
  assert (Hinit : cache_inv builtin_operation (fresh_processor 2, World_init)).
  { intros key v Hlook. simpl in Hlook. rewrite lookup_empty in Hlook. discriminate Hlook. }
  split; [exact Hinit|].
  apply (cache_invariant_preserved builtin_operation (CallProcess sample_data)
           (fresh_processor 2, World_init) Hinit).
Defined.

(** Aliasing: when the first processor is added a second time, the
    second entry of the list is that same object, and a batch changes
    the cache and the counters seen through it. *)
Remark batch_touches_aliased_entry :
  let m := foldl add_processor FeatureManager_init [0; 0]%nat in
  ∃ later slots h' w',
    processors m !! 1%nat = Some later
    ∧ process_batch builtin_operation [] m [sample_data] fresh_heap World_init
      = (Ok slots, (h', w'))
    ∧ processed (_metrics (fresh_heap later)) = 0
    ∧ processed (_metrics (h' later)) = 1
    ∧ _cache (h' later) ≠ _cache (fresh_heap later).
Proof.
  intros m. eexists 0%nat, _, _, _.
  split; [reflexivity|]. split; [vm_compute; reflexivity|].
  split; [reflexivity|]. split; [vm_compute; reflexivity|].
  intros Heq.
  apply (f_equal (λ c : gmap string PyVal, contains c "test-123:1234567890")) in Heq.
  vm_compute in Heq. discriminate Heq.
Qed.

(** * Further properties of the engine *)

(** ** The shape of every call *)

Section Shape.

Variable execute : Operation.

(** The loop over the attempts [a, a + 1, ...], the last of which is
    attempt [max_retries - 1]: it makes [k] calls, all on this record,
    sleeps an initial part of the backoff sequence, and ends in one of
    three ways. *)
Lemma retry_loop_seq data key len :
  ∀ a p w,
    (len = 0%nat ∨ Z.of_nat (a + len) = max_retries (config p)) →
    ∃ k evs r p' w',
      retry_loop execute data key (Z.of_nat <$> seq a len) (p, w) = (r, (p', w'))
      ∧ calls w' = (calls w + k)%nat
      ∧ trace w' = trace w ++ evs
      ∧ (k ≤ len)%nat
      ∧ executions evs = (λ j : nat, ((calls w + j)%nat, data)) <$> seq 0 k
      ∧ sleeps evs `prefix_of` ((λ j : nat, 2 ^ Z.of_nat j) <$> seq a (len - 1))
      ∧ ((len = 0%nat ∧ k = 0%nat ∧ evs = []
          ∧ r = Raise (RuntimeError "Unexpected processing failure" None) ∧ p' = p)
         ∨ ((1 ≤ k)%nat
            ∧ loop_ends execute data key p (calls w + (k - 1))%nat r p'
            ∧ ((∃ e, r = Raise e) → k = len))).
Proof.
  induction len as [|len IH]; intros a p w Hlast.
  - exists 0%nat, [], (Raise (RuntimeError "Unexpected processing failure" None)), p, w.
    simpl. rewrite Nat.add_0_r, app_nil_r. split_and!; try done. by left.
  - destruct Hlast as [|Hlast]; [done|].
    simpl seq. rewrite fmap_cons.
    destruct (execute (calls w) data) as [v|e] eqn:Hex.
    + (* the attempt succeeds *)
      rewrite (retry_loop_ok execute data key _ _ p w v Hex).
      eexists 1%nat, [Exec (calls w) data], _, _, _. split; [reflexivity|]. simpl.
      split; [lia|]. split; [done|]. split; [lia|].
      split; [by rewrite Nat.add_0_r|]. split; [apply prefix_nil|].
      right. split; [lia|]. split.
      * left. exists v. by rewrite Nat.add_0_r.
      * intros [e [=]].
    + destruct (decide (Z.of_nat a = max_retries (config p) - 1)) as [Hl|Hm].
      * (* the last attempt fails *)
        rewrite (retry_loop_fail_last execute data key _ _ p w e Hex Hl).
        assert (len = 0%nat) as -> by lia.
        eexists 1%nat, [_; _], _, _, _. split; [reflexivity|]. simpl.
        split; [lia|]. split; [done|]. split; [lia|].
        split; [by rewrite Nat.add_0_r|]. split; [apply prefix_nil|].
        right. split; [lia|]. split; [|done].
        right. exists e. by rewrite Nat.add_0_r.
      * (* the attempt fails and the loop goes on *)
        rewrite (retry_loop_fail_more execute data key _ _ p w e Hex Hm).
        destruct len as [|len]; [lia|].
        destruct (IH (S a) p
                    {| calls := S (calls w);
                       trace := trace w ++ [Exec (calls w) data;
                                            LogWarning (Z.of_nat a + 1) e;
                                            Sleep (2 ^ Z.of_nat a)] |})
          as (k & evs & r & p' & w' & Hrun & Hcalls & Htrace & Hk & Hexe & Hsl & Hend).
        { right. lia. }
        simpl in Hcalls, Htrace, Hexe, Hend.
        exists (S k), ([Exec (calls w) data; LogWarning (Z.of_nat a + 1) e;
                        Sleep (2 ^ Z.of_nat a)] ++ evs), r, p', w'.
        split; [exact Hrun|]. split; [lia|].
        split; [by rewrite Htrace, <- app_assoc|]. split; [lia|].
        split.
        { rewrite executions_app, Hexe. simpl. rewrite Nat.add_0_r. f_equal.
          rewrite <- fmap_S_seq, <- list_fmap_compose.
          apply list_fmap_ext. intros _ j _. simpl. f_equal. lia. }
        split.
        { replace (S len - 1)%nat with len in Hsl by lia.
          replace (S (S len) - 1)%nat with (S len) by lia.
          rewrite sleeps_app. simpl seq. rewrite fmap_cons.
          by apply prefix_cons. }
        right. destruct Hend as [(Hz & _)|(Hk1 & Hends & Hraise)]; [discriminate Hz|].
        split; [lia|]. split.
        -- replace (calls w + (S k - 1))%nat with (S (calls w) + (k - 1))%nat by lia.
           exact Hends.
        -- intros Hr. rewrite (Hraise Hr). reflexivity.
Qed.

Lemma pow2_range_to_nat N :
  Z.pow 2 <$> range (N - 1)
  = (λ j : nat, 2 ^ Z.of_nat j) <$> seq 0 (Z.to_nat N - 1).
Proof.
  rewrite range_nat, <- list_fmap_compose. f_equal. f_equal. lia.
Qed.

(** Every call of [process] is of one of four kinds: the record is
    invalid; it is answered from the cache; no attempt is allowed; or
    the loop runs and its last attempt decides. *)
Lemma process_shape data p w :
  ∃ k evs r p' w',
    process execute data (p, w) = (r, (p', w'))
    ∧ calls w' = (calls w + k)%nat
    ∧ trace w' = trace w ++ evs
    ∧ (k ≤ Z.to_nat (max_retries (config p)))%nat
    ∧ executions evs = (λ j : nat, ((calls w + j)%nat, data)) <$> seq 0 k
    ∧ sleeps evs `prefix_of` (Z.pow 2 <$> range (max_retries (config p) - 1))
    ∧ ((validate data = false ∧ k = 0%nat
        ∧ r = Raise (ValueError "Invalid input data structure") ∧ p' = p)
       ∨ (validate data = true ∧ served_from_cache p data = true ∧ k = 0%nat
          ∧ ∃ key v, cache_key data = Some key ∧ _cache p !! key = Some v
                     ∧ r = Ok v ∧ p' = incr_cache_hits p)
       ∨ (validate data = true ∧ served_from_cache p data = false
          ∧ max_retries (config p) ≤ 0 ∧ k = 0%nat
          ∧ r = Raise (RuntimeError "Unexpected processing failure" None) ∧ p' = p)
       ∨ (validate data = true ∧ served_from_cache p data = false
          ∧ 1 ≤ max_retries (config p) ∧ (1 ≤ k)%nat
          ∧ ∃ key, cache_key data = Some key
                   ∧ loop_ends execute data key p (calls w + (k - 1))%nat r p'
                   ∧ ((∃ e, r = Raise e) → k = Z.to_nat (max_retries (config p))))).
Proof.
  destruct (validate data) eqn:Hv.
  - destruct (validate_cache_key _ Hv) as [key Hk].
    destruct (served_from_cache p data) eqn:Hserved.
    + destruct (served_from_cache_true _ _ Hserved) as (Hen & key' & v & Hk' & Hc).
      eexists 0%nat, [LogDebug key'], _, _, _.
      split; [by apply process_hit|]. simpl.
      split; [lia|]. split; [done|]. split; [lia|]. split; [done|].
      split; [apply prefix_nil|]. right; left. eauto 10.
    + rewrite (process_miss execute data key p w Hv Hk Hserved), range_nat.
      destruct (retry_loop_seq data key (Z.to_nat (max_retries (config p))) 0 p w)
        as (k & evs & r & p' & w' & Hrun & Hcalls & Htrace & Hle & Hexe & Hsl & Hend).
      { destruct (decide (max_retries (config p) ≤ 0)); [left|right]; lia. }
      exists k, evs, r, p', w'. split; [exact Hrun|].
      split; [done|]. split; [done|]. split; [done|]. split; [done|].
      split; [by rewrite pow2_range_to_nat|].
      right; right.
      destruct Hend as [(Hz & -> & _ & -> & ->)|(Hk1 & Hends & Hraise)].
      * left. split_and!; try done. lia.
      * right. split_and!; try done; [lia|]. eauto.
  - eexists 0%nat, [], _, p, w. unfold process, mbind, M_bind.
    rewrite check_cache_invalid by done.
    split; [reflexivity|]. split; [lia|]. split; [by rewrite app_nil_r|].
    split; [lia|]. split; [done|]. split; [apply prefix_nil|]. by left.
Qed.

End Shape.

(** ** What one call spends and counts *)

(** X1.  Whatever the operation does, one call of [process] calls it at
    most [max_retries] times, always on the record it was given, with
    consecutive call numbers, and not at all when the record is invalid
    or answered from the cache; what it sleeps is an initial part of
    1, 2, 4, ..., [2 ^ (max_retries - 2)]. *)
Theorem process_call_budget (execute : Operation) (data : Dict) p w :
  ∃ r p' w' evs k,
    process execute data (p, w) = (r, (p', w'))
    ∧ trace w' = trace w ++ evs
    ∧ calls w' = (calls w + k)%nat
    ∧ executions evs = (λ j : nat, ((calls w + j)%nat, data)) <$> seq 0 k
    ∧ (k ≤ Z.to_nat (max_retries (config p)))%nat
    ∧ (validate data = false → k = 0%nat)
    ∧ (served_from_cache p data = true → k = 0%nat)
    ∧ sleeps evs `prefix_of` (Z.pow 2 <$> range (max_retries (config p) - 1)).
Proof.
  destruct (process_shape execute data p w)
    as (k & evs & r & p' & w' & Hrun & Hcalls & Htrace & Hle & Hexe & Hsl & Hcase).
  exists r, p', w', evs, k. split_and!; try done.
  - intros Hv. destruct Hcase as [(_ & -> & _)|[(Hv' & _)|[(Hv' & _)|(Hv' & _)]]];
      [done|congruence..].
  - intros Hs.
    destruct Hcase as [(_ & -> & _)|[(_ & _ & -> & _)|[(_ & Hs' & _)|(_ & Hs' & _)]]];
      [done|done|congruence..].
Qed.

(** X2.  No call of [process] lowers a counter or touches the
    configuration, and it counts at most one outcome: the three
    counters together grow by zero or by one. *)
Theorem process_counters_step (execute : Operation) (data : Dict) (s : St) :
  let m := _metrics (fst s) in
  let m' := _metrics (fst (snd (process execute data s))) in
  processed m ≤ processed m'
  ∧ failed m ≤ failed m'
  ∧ cache_hits m ≤ cache_hits m'
  ∧ counted m' ≤ counted m + 1
  ∧ config (fst (snd (process execute data s))) = config (fst s).
Proof.
  destruct s as [p w].
  destruct (process_shape execute data p w)
    as (k & evs & r & p' & w' & Hrun & _ & _ & _ & _ & _ & Hcase).
  rewrite Hrun. unfold counted. simpl.
  destruct Hcase
    as [(_ & _ & _ & ->)
       |[(_ & _ & _ & key & v & _ & _ & _ & ->)
        |[(_ & _ & _ & _ & _ & ->)
         |(_ & _ & _ & _ & key & _ & [(v & _ & _ & ->)|(e & _ & _ & ->)] & _)]]];
    simpl; try (split_and!; [lia..|done]).
  destruct (cache_enabled (config p)); simpl; (split_and!; [lia..|done]).
Qed.

(** X3.  With [max_retries >= 1], a call of [process] on a valid record
    counts exactly one outcome.  It returns a result exactly when the
    failed counter stays; it raises the processing error exactly when
    the failed counter grows by one, and then the other two counters
    stay, the call has used all its [max_retries] attempts, and the
    cause of the error is the failure of the last of them, the call of
    the operation numbered [calls w + max_retries - 1]. *)
Theorem process_valid_counts_once (execute : Operation) (data : Dict) p w :
  validate data = true →
  1 ≤ max_retries (config p) →
  ∃ r p' w',
    process execute data (p, w) = (r, (p', w'))
    ∧ counted (_metrics p') = counted (_metrics p) + 1
    ∧ (((∃ v, r = Ok v) ∧ failed (_metrics p') = failed (_metrics p))
       ∨ ((∃ e, r = Raise (RuntimeError
                             ("Processing failed after "
                              +:+ pretty (max_retries (config p)) +:+ " attempts")
                             (Some e))
                ∧ execute (calls w + (Z.to_nat (max_retries (config p)) - 1))%nat data
                  = Raise e)
          ∧ calls w' = (calls w + Z.to_nat (max_retries (config p)))%nat
          ∧ failed (_metrics p') = failed (_metrics p) + 1
          ∧ processed (_metrics p') = processed (_metrics p)
          ∧ cache_hits (_metrics p') = cache_hits (_metrics p))).
Proof.
  intros Hv HN.
  destruct (process_shape execute data p w)
    as (k & evs & r & p' & w' & Hrun & Hcalls & _ & _ & _ & _ & Hcase).
  exists r, p', w'. split; [exact Hrun|]. unfold counted.
  destruct Hcase
    as [(Hv' & _)
       |[(_ & _ & _ & key & v & _ & _ & -> & ->)
        |[(_ & _ & HN' & _)
         |(_ & _ & _ & _ & key & _ & [(v & _ & -> & ->)|(e & Hex & -> & ->)] & Hall)]]];
    [congruence| |lia| |]; simpl.
  - split; [lia|]. left. eauto.
  - destruct (cache_enabled (config p)); simpl; (split; [lia|]); left; eauto.
  - split; [lia|]. right.
    assert (Hk : k = Z.to_nat (max_retries (config p))) by (apply Hall; eauto).
    rewrite Hk in Hex, Hcalls. split; [eauto|]. split; [exact Hcalls|]. done.
Qed.

(** X4.  A call of [process] leaves alone every cache entry that is not
    under the key of its record; it leaves the whole cache alone when
    caching is disabled and whenever it raises. *)
Theorem process_cache_frame (execute : Operation) (data : Dict) p w :
  let r := fst (process execute data (p, w)) in
  let p' := fst (snd (process execute data (p, w))) in
  (∀ key, cache_key data ≠ Some key → _cache p' !! key = _cache p !! key)
  ∧ (cache_enabled (config p) = false → _cache p' = _cache p)
  ∧ ((∃ e, r = Raise e) → _cache p' = _cache p).
Proof.
  destruct (process_shape execute data p w)
    as (k & evs & r & p' & w' & Hrun & _ & _ & _ & _ & _ & Hcase).
  rewrite Hrun. simpl.
  destruct Hcase
    as [(_ & _ & _ & ->)
       |[(_ & _ & _ & key & v & _ & _ & _ & ->)
        |[(_ & _ & _ & _ & _ & ->)
         |(_ & _ & _ & _ & key & Hk & [(v & _ & -> & ->)|(e & _ & _ & ->)] & _)]]];
    try done.
  simpl. destruct (cache_enabled (config p)); simpl; [|done].
  split_and!.
  - intros key' Hne. apply lookup_insert_ne. congruence.
  - done.
  - intros [e [=]].
Qed.

Lemma sum_pow2_seq a f :
  foldr Z.add 0 ((λ j : nat, 2 ^ Z.of_nat j) <$> seq a f)
  = 2 ^ Z.of_nat (a + f) - 2 ^ Z.of_nat a.
Proof.
  revert a. induction f as [|f IH]; intros a.
  - simpl. rewrite Nat.add_0_r. lia.
  - simpl seq. rewrite fmap_cons. simpl foldr. rewrite IH.
    replace (Z.of_nat (S a + f)) with (Z.of_nat (a + S f)) by lia.
    replace (Z.of_nat (S a)) with (Z.succ (Z.of_nat a)) by lia.
    rewrite Z.pow_succ_r by lia. lia.
Qed.

Lemma sum_prefix_le (l1 l2 : list Z) :
  l1 `prefix_of` l2 →
  Forall (λ x, 0 ≤ x) l2 →
  0 ≤ foldr Z.add 0 l1 ≤ foldr Z.add 0 l2.
Proof.
  intros [l3 ->] Hpos. apply Forall_app in Hpos as [H1 H3].
  assert (Hsum : ∀ l, Forall (λ x, 0 ≤ x) l → 0 ≤ foldr Z.add 0 l).
  { induction 1; simpl; lia. }
  assert (Happ : foldr Z.add 0 (l1 ++ l3) = foldr Z.add 0 l1 + foldr Z.add 0 l3).
  { clear. induction l1; simpl; lia. }
  rewrite Happ. pose proof (Hsum l1 H1). pose proof (Hsum l3 H3). lia.
Qed.

(** X5.  Whatever the operation does, one call of [process] sleeps at
    most [2 ^ (max_retries - 1) - 1] time units in all (nothing when
    [max_retries <= 1]). *)
Theorem process_backoff_bound (execute : Operation) (data : Dict) p w :
  ∃ r p' w' evs,
    process execute data (p, w) = (r, (p', w'))
    ∧ trace w' = trace w ++ evs
    ∧ 0 ≤ total_sleep evs ≤ 2 ^ Z.max 0 (max_retries (config p) - 1) - 1.
Proof.
  destruct (process_shape execute data p w)
    as (k & evs & r & p' & w' & Hrun & _ & Htrace & _ & _ & Hsl & _).
  exists r, p', w', evs. split; [exact Hrun|]. split; [exact Htrace|].
  unfold total_sleep.
  rewrite pow2_range_to_nat in Hsl.
  apply sum_prefix_le in Hsl.
  - rewrite sum_pow2_seq in Hsl. simpl in Hsl.
    replace (Z.max 0 (max_retries (config p) - 1))
      with (Z.of_nat (Z.to_nat (max_retries (config p)) - 1)) by lia.
    lia.
  - apply Forall_fmap, Forall_forall. intros j _. simpl. lia.
Qed.

(** X6.  The counters of an engine are never negative, and every
    outcome counted as processed or as failed is backed by a call of
    the operation: [processed + failed <= calls]. *)
Theorem reachable_counters (execute : Operation) p w :
  reachable execute (p, w) →
  0 ≤ processed (_metrics p)
  ∧ 0 ≤ failed (_metrics p)
  ∧ 0 ≤ cache_hits (_metrics p)
  ∧ processed (_metrics p) + failed (_metrics p) ≤ Z.of_nat (calls w).
Proof.
  intros Hreach. remember (p, w) as s eqn:Hs. revert p w Hs.
  induction Hreach as [cfg w0|c [p0 w0] _ IH]; intros p w Hs.
  - injection Hs as <- <-. simpl. lia.
  - specialize (IH p0 w0 eq_refl). destruct c as [data| |]; simpl in Hs.
    + destruct (process_shape execute data p0 w0)
        as (k & evs & r & p' & w' & Hrun & Hcalls & _ & _ & _ & _ & Hcase).
      rewrite Hrun in Hs. simpl in Hs. injection Hs as <- <-. rewrite Hcalls.
      destruct Hcase
        as [(_ & _ & _ & ->)
           |[(_ & _ & _ & key & v & _ & _ & _ & ->)
            |[(_ & _ & _ & _ & _ & ->)
             |(_ & _ & _ & Hk & key & _ & [(v & _ & _ & ->)|(e & _ & _ & ->)] & _)]]];
        simpl; try lia.
      destruct (cache_enabled (config p0)); simpl; lia.
    + injection Hs as <- <-. simpl. lia.
    + injection Hs as <- <-. simpl. lia.
Qed.

(** X7.  A cache hit is final: when caching is enabled and the cache
    holds a value under the key of a valid record, [process] returns
    that value, adds one to the cache-hit counter and does nothing
    else, whatever the operation would return now and whatever the
    record's payload is. *)
Theorem process_hit_is_final (execute : Operation) (data : Dict) key v p w :
  validate data = true →
  cache_enabled (config p) = true →
  cache_key data = Some key →
  _cache p !! key = Some v →
  process execute data (p, w)
  = (Ok v, (incr_cache_hits p,
            {| calls := calls w; trace := trace w ++ [LogDebug key] |})).
Proof. intros Hv Hen Hk Hc. by apply process_hit. Qed.

(** X8.  Recovery: when the first [f] attempts fail and the next one,
    still within [max_retries], returns [v], [process] returns [v]
    after [f + 1] calls and [2 ^ f - 1] time units of backoff; it
    counts the record as processed, not as failed, and, with caching
    enabled, the next call on that record is answered from the cache. *)
Theorem process_recovers (execute : Operation) (data : Dict) p w
    (err : nat → PyExn) (f : nat) (v : PyVal) :
  validate data = true →
  served_from_cache p data = false →
  Z.of_nat f < max_retries (config p) →
  (∀ j, (j < f)%nat → execute (calls w + j)%nat data = Raise (err j)) →
  execute (calls w + f)%nat data = Ok v →
  ∃ p' w' evs,
    process execute data (p, w) = (Ok v, (p', w'))
    ∧ trace w' = trace w ++ evs
    ∧ calls w' = (calls w + (f + 1))%nat
    ∧ total_sleep evs = 2 ^ Z.of_nat f - 1
    ∧ processed (_metrics p') = processed (_metrics p) + 1
    ∧ failed (_metrics p') = failed (_metrics p)
    ∧ cache_hits (_metrics p') = cache_hits (_metrics p)
    ∧ (cache_enabled (config p) = true → served_from_cache p' data = true)
    ∧ (cache_enabled (config p) = false → _cache p' = _cache p).
Proof.
  intros Hv Hmiss HN Hfail Hok.
  destruct (process_succeeds_after execute data p w err f v Hv Hmiss HN Hfail Hok)
    as (key & Hk & Hrun).
  eexists _, _, _. split; [exact Hrun|]. simpl. split; [reflexivity|].
  split; [lia|]. split.
  { unfold total_sleep. rewrite sleeps_app, sleeps_backoff. simpl.
    rewrite app_nil_r, sum_pow2_seq. simpl. lia. }
  split; [by destruct (cache_enabled (config p))|].
  split; [by destruct (cache_enabled (config p))|].
  split; [by destruct (cache_enabled (config p))|].
  split; intros Hen; rewrite Hen; [|done].
  unfold served_from_cache. simpl. rewrite Hen, Hk. simpl.
  unfold contains. by rewrite lookup_insert_eq.
Qed.

(** X9.  The operation of the class never exhausts the retries: with
    [max_retries >= 1], [process] on a valid record returns a result,
    does not sleep and does not touch the failed counter; when the
    record is not answered from the cache the result echoes the
    record's payload and the configuration metadata, stamped by the
    one call made. *)
Theorem process_builtin_succeeds (cfg : FeatureConfig) (utcnow : nat → string)
    (data : Dict) p w :
  validate data = true →
  1 ≤ max_retries (config p) →
  ∃ v p' w' evs,
    process (_execute_processing cfg utcnow) data (p, w) = (Ok v, (p', w'))
    ∧ trace w' = trace w ++ evs
    ∧ sleeps evs = []
    ∧ failed (_metrics p') = failed (_metrics p)
    ∧ (served_from_cache p data = false →
       calls w' = S (calls w)
       ∧ ∃ payload,
           data !! "payload" = Some payload
           ∧ v = VDict [("success", VBool true);
                        ("data", payload);
                        ("processed_at", VStr (utcnow (calls w)));
                        ("config", VDict (metadata cfg))]).
Proof.
  intros Hv HN.
  destruct (_execute_processing_valid cfg utcnow (calls w) data Hv)
    as (payload & Hp & Hok).
  destruct (served_from_cache p data) eqn:Hserved.
  - destruct (served_from_cache_true _ _ Hserved) as (Hen & key & v & Hk & Hc).
    eexists v, _, _, _. split; [by apply process_hit|]. simpl.
    split; [reflexivity|]. split; [done|]. split; [done|]. intros [=].
  - edestruct (process_succeeds_after (_execute_processing cfg utcnow) data p w
                 (λ _, KeyError "") 0)
      as (key & Hk & Hrun);
      [exact Hv|exact Hserved|lia|intros j Hj; lia|rewrite Nat.add_0_r; exact Hok|].
    eexists _, _, _, _. split; [exact Hrun|]. simpl. split; [reflexivity|].
    split; [done|]. split; [by destruct (cache_enabled (config p))|].
    intros _. split; [lia|]. eauto.
Qed.

(** X10.  After [clear_cache] nothing is answered from the cache: with
    [max_retries >= 1], the next [process] on a valid record calls the
    operation again, also for a record that was cached before. *)
Theorem clear_cache_reexecutes (execute : Operation) (data : Dict) p w :
  validate data = true →
  1 ≤ max_retries (config p) →
  ∃ r p' w' evs k,
    process execute data (snd (clear_cache (p, w))) = (r, (p', w'))
    ∧ trace w' = trace w ++ [LogInfo "Cache cleared"] ++ evs
    ∧ calls w' = (calls w + k)%nat
    ∧ (1 ≤ k)%nat
    ∧ executions evs = (λ j : nat, ((calls w + j)%nat, data)) <$> seq 0 k.
Proof.
  intros Hv HN. simpl.
  destruct (process_shape execute data (clear p)
              {| calls := calls w; trace := trace w ++ [LogInfo "Cache cleared"] |})
    as (k & evs & r & p' & w' & Hrun & Hcalls & Htrace & _ & Hexe & _ & Hcase).
  simpl in Hcalls, Htrace, Hexe.
  exists r, p', w', evs, k. split; [exact Hrun|].
  split; [by rewrite Htrace, <- app_assoc|]. split; [exact Hcalls|].
  split; [|exact Hexe].
  destruct Hcase
    as [(Hv' & _)|[(_ & Hs & _)|[(_ & _ & HN' & _)|(_ & _ & _ & Hk & _)]]];
    [congruence| |simpl in HN'; lia|done].
  apply served_from_cache_true in Hs as (_ & key & v & _ & Hc).
  simpl in Hc. by rewrite lookup_empty in Hc.
Qed.

(** X11.  With caching disabled the cache is out of the picture: with
    [max_retries >= 1], every [process] on a valid record calls the
    operation, and neither the cache nor the cache-hit counter ever
    changes. *)
Theorem process_cache_disabled (execute : Operation) (data : Dict) p w :
  cache_enabled (config p) = false →
  validate data = true →
  1 ≤ max_retries (config p) →
  ∃ r p' w' k,
    process execute data (p, w) = (r, (p', w'))
    ∧ calls w' = (calls w + k)%nat
    ∧ (1 ≤ k)%nat
    ∧ _cache p' = _cache p
    ∧ cache_hits (_metrics p') = cache_hits (_metrics p).
Proof.
  intros Hen Hv HN.
  destruct (process_shape execute data p w)
    as (k & evs & r & p' & w' & Hrun & Hcalls & _ & _ & _ & _ & Hcase).
  exists r, p', w', k. split; [exact Hrun|]. split; [exact Hcalls|].
  destruct Hcase
    as [(Hv' & _)
       |[(_ & Hs & _)
        |[(_ & _ & HN' & _)
         |(_ & _ & _ & Hk & key & _ & [(v & _ & _ & ->)|(e & _ & _ & ->)] & _)]]];
    [congruence| |lia| |].
  - apply served_from_cache_true in Hs as [Hen' _]. congruence.
  - by rewrite Hen.
  - done.
Qed.

(** ** Batches *)

Section BatchFacts.

Variable execute : Operation.

Lemma interleave_nil sched s : interleave execute sched [] s = ([], s).
Proof. induction sched as [|i sched IH]; [done|]. simpl. exact IH. Qed.

(** A task that runs alone ends as if it had never been suspended. *)
Lemma gather_single sched :
  ∀ c s, gather execute sched [c] s = ([fst (finish execute c s)], snd (finish execute c s)).
Proof.
  unfold gather. induction sched as [|i sched IH]; intros c s.
  - simpl. by destruct (finish execute c s).
  - destruct i as [|i]; simpl.
    + pose proof (finish_resume execute c s) as Hfin.
      destruct (resume execute c s) as [c' s']. simpl in Hfin.
      rewrite IH, Hfin. reflexivity.
    + apply IH.
Qed.

End BatchFacts.

(** X12.  A batch of one record is [process] on the first engine, under
    every schedule: the slot, the engine's new state and the world are
    those of the single call. *)
Theorem process_batch_single (execute : Operation) (sched : list nat)
    (m : FeatureManager) (engine : nat) (data : Dict)
    (h : nat → FeatureProcessor) (w : World) :
  head (processors m) = Some engine →
  ∃ r p' w' h',
    process execute data (h engine, w) = (r, (p', w'))
    ∧ process_batch execute sched m [data] h w = (Ok [r], (h', w'))
    ∧ h' engine = p'
    ∧ ∀ other, other ≠ engine → h' other = h other.
Proof.
  intros Hhead. unfold process_batch.
  destruct (processors m) as [|processor rest]; [done|].
  injection Hhead as ->. simpl fmap.
  rewrite (gather_single execute sched (CStart data) (h engine, w)). simpl.
  destruct (process execute data (h engine, w)) as [r [p' w']]. simpl.
  eexists r, p', w', _. split; [done|]. split; [reflexivity|].
  split; [apply fn_lookup_insert|].
  intros other Hne. by apply fn_lookup_insert_ne.
Qed.

(** X13.  The empty batch: a manager that has an engine answers it with
    the empty list, calls nothing, and leaves every processor and the
    world as they were, under every schedule. *)
Theorem process_batch_empty (execute : Operation) (sched : list nat)
    (m : FeatureManager) (h : nat → FeatureProcessor) (w : World) :
  processors m ≠ [] →
  ∃ h', process_batch execute sched m [] h w = (Ok [], (h', w))
        ∧ ∀ r, h' r = h r.
Proof.
  intros Hprocs. unfold process_batch.
  destruct (processors m) as [|processor rest]; [done|].
  unfold gather. simpl fmap. rewrite interleave_nil. simpl.
  eexists. split; [reflexivity|]. intros r.
  destruct (decide (processor = r)) as [->|Hne].
  - apply fn_lookup_insert.
  - by apply fn_lookup_insert_ne.
Qed.

(** X14.  Whatever the schedule and however many records fail, after a
    batch the engine's cache holds only entries it held before and
    values that a call of the batch returned: such a call is among the
    events of the batch, it was made on a record of the batch, and the
    value sits under the key of that record.  A failure leaves nothing
    in the cache. *)
Theorem process_batch_cache_sound (execute : Operation) (sched : list nat)
    (m : FeatureManager) (engine : nat) (items : list Dict)
    (h : nat → FeatureProcessor) (w : World) :
  head (processors m) = Some engine →
  ∃ slots h' w' evs,
    process_batch execute sched m items h w = (Ok slots, (h', w'))
    ∧ trace w' = trace w ++ evs
    ∧ ∀ key v, _cache (h' engine) !! key = Some v →
        _cache (h engine) !! key = Some v
        ∨ ∃ n data, Exec n data ∈ evs
                    ∧ data ∈ items
                    ∧ execute n data = Ok v
                    ∧ cache_key data = Some key.
Proof.
  intros Hhead. unfold process_batch.
  destruct (processors m) as [|processor rest]; [done|].
  injection Hhead as ->.
  destruct (gather_batch execute sched items (h engine) w)
    as (slots & p' & w' & Hrun & _ & (_ & [_ [evs Htrace]] & Hfrom & Hexecs) & _).
  simpl in Htrace, Hexecs. rewrite Hrun.
  unfold cache_from in Hfrom. simpl in Hfrom.
  rewrite (events_since_extends w w' evs Htrace) in Hfrom, Hexecs.
  eexists slots, _, w', evs. split; [reflexivity|]. split; [exact Htrace|].
  intros key v. rewrite fn_lookup_insert. intros Hc.
  destruct (Hfrom key v Hc) as [Hold|(n & data & Hev & Hok & Hk)]; [by left|right].
  exists n, data. split_and!; try done. by eapply Hexecs.
Qed.

(** Once a manager has a processor, adding more never changes what a
    batch does. *)
Remark add_processor_keeps_engine (execute : Operation) (sched : list nat)
    (m : FeatureManager) (processor : nat) (items : list Dict)
    (h : nat → FeatureProcessor) (w : World) :
  processors m ≠ [] →
  process_batch execute sched (add_processor m processor) items h w
  = process_batch execute sched m items h w.
Proof.
  intros Hprocs. unfold process_batch, add_processor. simpl.
  by destruct (processors m) as [|first rest].
Qed.

(** ** A batch whose tasks all start before any of them returns *)

Section StartAll.

Variable execute : Operation.

Lemma resume_start d p w :
  validate d = true →
  served_from_cache p d = false →
  1 ≤ max_retries (config p) →
  resume execute (CStart d) (p, w)
  = (started execute (max_retries (config p)) (calls w) d,
     (p, {| calls := S (calls w); trace := trace w ++ [Exec (calls w) d] |})).
Proof.
  intros Hv Hmiss HN. destruct (validate_cache_key _ Hv) as [key Hk].
  simpl. rewrite (check_cache_miss d key p w Hv Hk Hmiss). simpl.
  rewrite range_nat.
  unfold started. rewrite Hk.
  destruct (Z.to_nat (max_retries (config p))) as [|n] eqn:Hn; [lia|].
  unfold next_attempt. simpl seq. rewrite fmap_cons, invoke_eq. simpl.
  by rewrite Nat.sub_0_r.
Qed.

Lemma interleave_cons i sched tasks s c :
  tasks !! i = Some c →
  interleave execute (i :: sched) tasks s
  = (let '(c', s') := resume execute c s in
     interleave execute sched (<[i := c']> tasks) s').
Proof. intros Hc. simpl. by rewrite Hc. Qed.

Lemma interleave_start_all items :
  ∀ pre p w rest,
    Forall (λ d, validate d = true ∧ served_from_cache p d = false) items →
    1 ≤ max_retries (config p) →
    interleave execute (seq (length pre) (length items) ++ rest)
               (pre ++ (CStart <$> items)) (p, w)
    = interleave execute rest
        (pre ++ started_all execute (max_retries (config p)) (calls w) items)
        (p, {| calls := (calls w + length items)%nat;
               trace := trace w ++ start_events (calls w) items |}).
Proof.
  induction items as [|d items IH]; intros pre p w rest Hall HN.
  - destruct w as [n t]. cbn. by rewrite Nat.add_0_r, !app_nil_r.
  - apply Forall_cons in Hall as [[Hv Hmiss] Hall].
    rewrite fmap_cons. simpl length. simpl seq. rewrite <- app_comm_cons.
    rewrite (interleave_cons (length pre) _ _ _ (CStart d))
      by (by apply list_lookup_middle).
    rewrite (resume_start d p w Hv Hmiss HN).
    rewrite insert_app_r_alt by lia. rewrite Nat.sub_diag. simpl insert.
    set (c := started execute (max_retries (config p)) (calls w) d).
    replace (pre ++ c :: (CStart <$> items)) with ((pre ++ [c]) ++ (CStart <$> items))
      by (by rewrite <- app_assoc).
    replace (S (length pre)) with (length (pre ++ [c]))
      by (rewrite length_app; simpl; lia).
    rewrite IH by done. simpl. rewrite <- !app_assoc. simpl.
    by replace (calls w + S (length items))%nat with (S (calls w + length items)) by lia.
Qed.

Lemma pending_insert tasks :
  ∀ i c c',
    tasks !! i = Some c →
    (pending (<[i := c']> tasks) + is_pending c = pending tasks + is_pending c')%nat.
Proof.
  induction tasks as [|c0 tasks IH]; intros i c c' Hi; [done|].
  destruct i as [|i]; simpl in *.
  - injection Hi as ->. lia.
  - specialize (IH i c c' Hi). lia.
Qed.

Lemma pending_started_all N n items :
  pending (started_all execute N n items) = length items.
Proof. revert n. induction items as [|d items IH]; intros n; simpl; [done|]. by rewrite IH. Qed.

Lemma landing_started_all N n items :
  Forall2 landing (answers execute n items) (started_all execute N n items).
Proof.
  revert n. induction items as [|d items IH]; intros n; simpl; constructor; [|apply IH].
  left. unfold started. eauto.
Qed.

Lemma answers_lookup items :
  ∀ n i, answers execute n items !! i = (λ d, execute (n + i)%nat d) <$> items !! i.
Proof.
  induction items as [|d items IH]; intros n i; [done|].
  destruct i as [|i]; simpl.
  - by rewrite Nat.add_0_r.
  - rewrite IH. by replace (S n + i)%nat with (n + S i)%nat by lia.
Qed.

Lemma answers_length items : ∀ n, length (answers execute n items) = length items.
Proof. induction items as [|d items IH]; intros n; simpl; [done|]. by rewrite IH. Qed.

(** What a step does to a task that awaits, or has, a result. *)
Lemma resume_landing v c p w :
  landing (Ok v) c →
  ∃ p', resume execute c (p, w) = (CDone (Ok v), (p', w))
        ∧ config p' = config p
        ∧ (processed (_metrics p') = processed (_metrics p) + Z.of_nat (is_pending c))
        ∧ failed (_metrics p') = failed (_metrics p)
        ∧ cache_hits (_metrics p') = cache_hits (_metrics p).
Proof.
  intros [(d & key & attempt & rest & ->)| ->]; simpl.
  - rewrite on_result_eq. simpl. eexists. split; [reflexivity|].
    destruct (cache_enabled (config p)); simpl; split_and!; done || lia.
  - exists p. split_and!; done || lia.
Qed.

Lemma finish_landing v c p w :
  landing (Ok v) c →
  ∃ p', finish execute c (p, w) = (Ok v, (p', w))
        ∧ config p' = config p
        ∧ (processed (_metrics p') = processed (_metrics p) + Z.of_nat (is_pending c))
        ∧ failed (_metrics p') = failed (_metrics p)
        ∧ cache_hits (_metrics p') = cache_hits (_metrics p).
Proof.
  intros [(d & key & attempt & rest & ->)| ->]; simpl.
  - rewrite on_result_eq. simpl. eexists. split; [reflexivity|].
    destruct (cache_enabled (config p)); simpl; split_and!; done || lia.
  - exists p. split_and!; done || lia.
Qed.

Lemma interleave_landing rs sched :
  ∀ tasks p w,
    Forall2 landing rs tasks →
    Forall (λ r, ∃ v, r = Ok v) rs →
    ∃ tasks' p',
      interleave execute sched tasks (p, w) = (tasks', (p', w))
      ∧ Forall2 landing rs tasks'
      ∧ config p' = config p
      ∧ processed (_metrics p') + Z.of_nat (pending tasks')
        = processed (_metrics p) + Z.of_nat (pending tasks)
      ∧ failed (_metrics p') = failed (_metrics p)
      ∧ cache_hits (_metrics p') = cache_hits (_metrics p).
Proof.
  induction sched as [|i sched IH]; intros tasks p w Hland Hok.
  - exists tasks, p. by split_and!.
  - simpl. destruct (tasks !! i) as [c|] eqn:Hc; [|by apply IH].
    destruct (Forall2_lookup_r _ _ _ _ _ Hland Hc) as (r & Hr & Hlc).
    destruct (Forall_lookup_1 _ _ _ _ Hok Hr) as [v ->].
    destruct (resume_landing v c p w Hlc) as (p1 & -> & Hcfg & Hproc & Hfail & Hhits).
    destruct (IH (<[i := CDone (Ok v)]> tasks) p1 w) as
      (tasks' & p' & Hrun & Hland' & Hcfg' & Hproc' & Hfail' & Hhits'); [|done|].
    { rewrite <- (list_insert_id rs i (Ok v) Hr).
      apply Forall2_insert; [done|]. by right. }
    exists tasks', p'. split; [exact Hrun|]. split; [done|].
    pose proof (pending_insert tasks i c (CDone (Ok v)) Hc) as Hpend. simpl in Hpend.
    split_and!; [congruence|lia|congruence|congruence].
Qed.

Lemma drain_landing rs tasks :
  Forall2 landing rs tasks →
  Forall (λ r, ∃ v, r = Ok v) rs →
  ∀ p w,
    ∃ p', drain execute tasks (p, w) = (rs, (p', w))
          ∧ config p' = config p
          ∧ processed (_metrics p') = processed (_metrics p) + Z.of_nat (pending tasks)
          ∧ failed (_metrics p') = failed (_metrics p)
          ∧ cache_hits (_metrics p') = cache_hits (_metrics p).
Proof.
  induction 1 as [|r c rs tasks Hlc _ IH]; intros Hok p w.
  - exists p. simpl. split_and!; done || lia.
  - apply Forall_cons in Hok as [[v ->] Hok]. simpl.
    destruct (finish_landing v c p w Hlc) as (p1 & -> & Hcfg & Hproc & Hfail & Hhits).
    destruct (IH Hok p1 w) as (p' & -> & Hcfg' & Hproc' & Hfail' & Hhits').
    exists p'. split; [reflexivity|]. split_and!; [congruence|lia|congruence|congruence].
Qed.

End StartAll.

(** X15.  No deduplication inside a batch.  When the event loop starts
    every task of a batch before any of them gets its answer, which is
    what it does when the operation takes time, each record that is
    valid and not yet cached makes its own call of the operation, also
    records that share one cache key.  If the calls succeed, slot [i]
    is the answer to call [i], every record is counted as processed
    and none as a cache hit, however the tasks are scheduled after
    that. *)
Theorem process_batch_no_dedup (execute : Operation) (rest : list nat)
    (m : FeatureManager) (engine : nat) (items : list Dict)
    (h : nat → FeatureProcessor) (w : World) :
  head (processors m) = Some engine →
  1 ≤ max_retries (config (h engine)) →
  (∀ i d, items !! i = Some d →
     validate d = true ∧ served_from_cache (h engine) d = false
     ∧ ∃ v, execute (calls w + i)%nat d = Ok v) →
  ∃ slots h' w',
    process_batch execute (seq 0 (length items) ++ rest) m items h w
    = (Ok slots, (h', w'))
    ∧ length slots = length items
    ∧ (∀ i d, items !! i = Some d → slots !! i = Some (execute (calls w + i)%nat d))
    ∧ calls w' = (calls w + length items)%nat
    ∧ processed (_metrics (h' engine))
      = processed (_metrics (h engine)) + Z.of_nat (length items)
    ∧ cache_hits (_metrics (h' engine)) = cache_hits (_metrics (h engine))
    ∧ failed (_metrics (h' engine)) = failed (_metrics (h engine)).
Proof.
  intros Hhead HN Hitems. unfold process_batch.
  destruct (processors m) as [|processor others]; [done|].
  injection Hhead as ->. unfold gather.
  pose proof (interleave_start_all execute items [] (h engine) w rest) as Hstart.
  simpl in Hstart. rewrite Hstart; [|  |done]; cycle 1.
  { apply Forall_lookup. intros i d Hd. destruct (Hitems i d Hd) as (? & ? & _). done. }
  assert (Hok : Forall (λ r, ∃ v, r = Ok v) (answers execute (calls w) items)).
  { apply Forall_lookup. intros i r. rewrite answers_lookup.
    destruct (items !! i) as [d|] eqn:Hd; [|done]. simpl. intros [= <-].
    by destruct (Hitems i d Hd) as (_ & _ & Hv). }
  destruct (interleave_landing execute (answers execute (calls w) items) rest
              (started_all execute (max_retries (config (h engine))) (calls w) items)
              (h engine)
              {| calls := (calls w + length items)%nat;
                 trace := trace w ++ start_events (calls w) items |})
    as (tasks' & p1 & -> & Hland & Hcfg & Hproc & Hfail & Hhits);
    [apply landing_started_all|exact Hok|].
  destruct (drain_landing execute _ _ Hland Hok p1
              {| calls := (calls w + length items)%nat;
                 trace := trace w ++ start_events (calls w) items |})
    as (p2 & -> & Hcfg' & Hproc' & Hfail' & Hhits').
  eexists _, _, _. split; [reflexivity|].
  split; [apply answers_length|].
  split; [intros i d Hd; by rewrite answers_lookup, Hd|].
  split; [done|]. rewrite fn_lookup_insert.
  rewrite pending_started_all in Hproc.
  split_and!; [lia|congruence|congruence].
Qed.

(** X16.  [process_batch] raises in one case only, a manager without
    any processor, and then nothing has happened; a failure of a record
    never makes the batch raise. *)
Theorem process_batch_raises_iff (execute : Operation) (sched : list nat)
    (m : FeatureManager) (items : list Dict) (h : nat → FeatureProcessor) (w : World)
    (e : PyExn) :
  (fst (process_batch execute sched m items h w) = Raise e
   ↔ processors m = [] ∧ e = ValueError "No processors available")
  ∧ (processors m = [] → snd (process_batch execute sched m items h w) = (h, w)).
Proof.
  unfold process_batch. destruct (processors m) as [|processor rest]; simpl.
  - split; [|done]. split; [intros [= <-]; done|intros [_ ->]; done].
  - destruct (gather execute sched (CStart <$> items) (h processor, w)) as [slots [p' w']].
    simpl. split; [|done]. split; [done|intros [[=] _]].
Qed.

(** ** The factory and the validator *)




(** X18.  An engine that the factory builds is fresh (empty cache,
    counters at zero), and each configuration field holds the value the
    mapping gives it, unchecked, or its default (3, 30, true, the empty
    mapping) when the mapping does not give it. *)
Theorem create_feature_processor_fields (kwargs : list (string * PyVal))
    (p : FeatureProcessor) :
  create_feature_processor (Some kwargs) = Some (Ok p) →
  _cache p = ∅
  ∧ _metrics p = {| processed := 0; failed := 0; cache_hits := 0 |}
  ∧ (∀ n, kwargs_get "max_retries" kwargs = Some (VInt n) →
          max_retries (config p) = n)
  ∧ (kwargs_get "max_retries" kwargs = None → max_retries (config p) = 3)
  ∧ (∀ b, kwargs_get "cache_enabled" kwargs = Some (VBool b) →
          cache_enabled (config p) = b)
  ∧ (kwargs_get "cache_enabled" kwargs = None → cache_enabled (config p) = true)
  ∧ (∀ t, kwargs_get "timeout" kwargs = Some (VInt t) → timeout (config p) = t)
  ∧ (kwargs_get "timeout" kwargs = None → timeout (config p) = 30)
  ∧ (∀ md, kwargs_get "metadata" kwargs = Some (VDict md) → metadata (config p) = md)
  ∧ (kwargs_get "metadata" kwargs = None → metadata (config p) = []).
Proof.
  destruct kwargs as [|kv kwargs].
  { simpl. intros [= <-]. split_and!; try done. }
  unfold create_feature_processor, FeatureConfig_init.
  destruct (unexpected_keyword (kv :: kwargs)); [done|].
  unfold typed_config, keyword.
  cbn [obj_max_retries obj_timeout obj_cache_enabled obj_metadata].
  destruct (kwargs_get "max_retries" (kv :: kwargs)) as [[]|]; try done;
  destruct (kwargs_get "timeout" (kv :: kwargs)) as [[]|]; try done;
  destruct (kwargs_get "cache_enabled" (kv :: kwargs)) as [[]|]; try done;
  destruct (kwargs_get "metadata" (kv :: kwargs)) as [[]|]; try done;
  simpl; intros [= <-]; simpl;
  split_and!; try done; try (by intros ? [= ->]).
Qed.

(** X19.  Validation looks at the presence of the three fields and at
    nothing else: adding a field or overwriting one, with any value,
    keeps a valid record valid, and removing one of the three required
    fields makes any record invalid. *)
Theorem validate_presence_only (data : Dict) (k : string) (v : PyVal) :
  (validate data = true → validate (<[k := v]> data) = true)
  ∧ (k ∈ required_fields → validate (delete k data) = false).
Proof.
  split.
  - rewrite !validate_true. intros (Hid & Hts & Hp).
    rewrite !lookup_insert_is_Some'. tauto.
  - intros Hk. apply validate_false.
    unfold required_fields in Hk.
    apply elem_of_cons in Hk as [->|Hk]; [left; apply lookup_delete_eq|].
    apply elem_of_cons in Hk as [->|Hk]; [right; left; apply lookup_delete_eq|].
    apply list_elem_of_singleton in Hk as ->. right; right. apply lookup_delete_eq.
Qed.

Lemma string_append_assoc (a b c : string) : (a +:+ b) +:+ c = a +:+ (b +:+ c).
Proof.
  induction a as [|x a IH]; [done|].
  change (String x ((a +:+ b) +:+ c) = String x (a +:+ (b +:+ c))).
  by rewrite IH.
Qed.

(** X20.  The cache key does not identify a record.  An integer id and
    the string of its decimal digits give one key; and so do two
    records whose ids and timestamps split one text at different
    colons. *)
Theorem cache_key_collisions :
  (∀ (data1 data2 : Dict) (z : Z) (ts : PyVal),
      data1 !! "id" = Some (VInt z) →
      data2 !! "id" = Some (VStr (pretty z)) →
      data1 !! "timestamp" = Some ts →
      data2 !! "timestamp" = Some ts →
      cache_key data1 = cache_key data2)
  ∧ (∀ (data1 data2 : Dict) (a b c : string),
      data1 !! "id" = Some (VStr (a +:+ ":" +:+ b)) →
      data1 !! "timestamp" = Some (VStr c) →
      data2 !! "id" = Some (VStr a) →
      data2 !! "timestamp" = Some (VStr (b +:+ ":" +:+ c)) →
      cache_key data1 = cache_key data2).
Proof.
  split.
  - intros data1 data2 z ts Hid1 Hid2 Hts1 Hts2. unfold cache_key.
    by rewrite Hid1, Hid2, Hts1, Hts2.
  - intros data1 data2 a b c Hid1 Hts1 Hid2 Hts2. unfold cache_key.
    rewrite Hid1, Hid2, Hts1, Hts2. simpl. f_equal.
    rewrite !string_append_assoc. reflexivity.
Qed.

(** X21.  Records with one cache key are one record to the engine: with
    caching enabled and [max_retries >= 1], when [process] has returned
    a result for a record, a call on any valid record with the same key
    returns that same result, whatever its own payload, without calling
    the operation. *)
Theorem process_same_key (execute : Operation) (data1 data2 : Dict) p w :
  cache_enabled (config p) = true →
  1 ≤ max_retries (config p) →
  validate data1 = true →
  validate data2 = true →
  cache_key data1 = cache_key data2 →
  (∃ v, execute (calls w) data1 = Ok v) →
  ∃ r p1 w1 p2 w2,
    process execute data1 (p, w) = (Ok r, (p1, w1))
    ∧ process execute data2 (p1, w1) = (Ok r, (p2, w2))
    ∧ calls w2 = calls w1
    ∧ p2 = incr_cache_hits p1.
Proof.
  intros Hen HN Hv1 Hv2 Hkeys [v Hok].
  destruct (validate_cache_key _ Hv1) as [key Hk1].
  assert (Hk2 : cache_key data2 = Some key) by congruence.
  destruct (served_from_cache p data1) eqn:Hserved.
  - destruct (served_from_cache_true _ _ Hserved) as (_ & key' & v' & Hk' & Hc).
    assert (key' = key) as -> by congruence.
    eexists v', _, _, _, _.
    split; [by apply process_hit|].
    split; [by apply process_hit|]. done.
  - destruct (process_succeeds_after execute data1 p w (λ _, KeyError "") 0 v)
      as (key' & Hk' & Hrun); [done|done|lia|intros j Hj; lia|by rewrite Nat.add_0_r|].
    assert (key' = key) as -> by congruence.
    rewrite Hen in Hrun.
    eexists v, _, _, _, _.
    split; [exact Hrun|].
    split; [apply process_hit; [done|done|done|apply lookup_insert_eq]|]. done.
Qed.

(** ** The further properties on concrete engines *)

(** X3 on an engine with two attempts and an operation that fails five
    times: the cause is the failure of call 1, the second attempt. *)
Lemma process_valid_counts_once_witness :
  ∃ r p' w',
    process (flaky_operation 5) sample_data (fresh_processor 2, World_init) = (r, (p', w'))
    ∧ counted (_metrics p') = 1
    ∧ r = Raise (RuntimeError "Processing failed after 2 attempts" (Some (flaky_error 1)))
    ∧ failed (_metrics p') = 1.
Proof.
  destruct (process_valid_counts_once (flaky_operation 5) sample_data
              (fresh_processor 2) World_init)
    as (r & p' & w' & Hrun & Hcount & Hcase); [reflexivity|simpl; lia|].
  exists r, p', w'. split; [exact Hrun|]. split; [exact Hcount|].
  destruct Hcase as [[[v ->] _]|[(e & -> & He) (_ & Hfailed & _)]].
  - vm_compute in Hrun. discriminate Hrun.
  - split; [|exact Hfailed]. vm_compute in He. injection He as <-. reflexivity.
Defined.

(** X6 on an engine after two calls: the first uses both its attempts
    and fails, the second succeeds at once. *)
Lemma reachable_counters_witness :
  let s := run_call (flaky_operation 2) (CallProcess sample_data)
             (run_call (flaky_operation 2) (CallProcess sample_data)
                (fresh_processor 2, World_init)) in
  reachable (flaky_operation 2) s
  ∧ processed (_metrics (fst s)) = 1
  ∧ failed (_metrics (fst s)) = 1
  ∧ calls (snd s) = 3%nat
  ∧ processed (_metrics (fst s)) + failed (_metrics (fst s)) ≤ Z.of_nat (calls (snd s)).
Proof.
  intros s.
  assert (Hreach : reachable (flaky_operation 2) s).
  { apply reachable_call, reachable_call, reachable_init. }
  split; [exact Hreach|].
  split; [reflexivity|]. split; [reflexivity|]. split; [reflexivity|].
  destruct (reachable_counters (flaky_operation 2) (fst s) (snd s)) as (_ & _ & _ & Hle).
  - exact Hreach.
  - exact Hle.
Defined.

Lemma process_hit_is_final_witness :
  process always_failing other_payload (cached_processor, World_init)
  = (Ok (VStr "stale"),
     (incr_cache_hits cached_processor,
      {| calls := 0; trace := [LogDebug "test-123:1234567890"] |})).
Proof.
  apply (process_hit_is_final always_failing other_payload
           "test-123:1234567890" (VStr "stale") cached_processor World_init);
    reflexivity.
Defined.

Lemma process_recovers_witness :
  ∃ v p' w' evs,
    process (flaky_operation 2) sample_data (fresh_processor 4, World_init)
    = (Ok v, (p', w'))
    ∧ trace w' = evs
    ∧ calls w' = 3%nat
    ∧ total_sleep evs = 3.
Proof.
  edestruct (process_recovers (flaky_operation 2) sample_data
               (fresh_processor 4) World_init flaky_error 2)
    as (p' & w' & evs & Hrun & Htrace & Hcalls & Hsleep & _).
  - reflexivity.
  - reflexivity.
  - simpl. lia.
  - intros j Hj. destruct j as [|[|j]]; [reflexivity|reflexivity|lia].
  - reflexivity.
  - eexists _, p', w', evs. split; [exact Hrun|]. split; [exact Htrace|].
    split; [exact Hcalls|]. exact Hsleep.
Defined.

Lemma process_builtin_succeeds_witness :
  ∃ v p' w' evs,
    process builtin_operation sample_data (fresh_processor 1, World_init)
    = (Ok v, (p', w'))
    ∧ trace w' = evs
    ∧ sleeps evs = [].
Proof.
  destruct (process_builtin_succeeds FeatureConfig_default sample_clock sample_data
              (fresh_processor 1) World_init)
    as (v & p' & w' & evs & Hrun & Htrace & Hsleeps & _); [reflexivity|simpl; lia|].
  exists v, p', w', evs. split; [exact Hrun|]. split; [exact Htrace|]. exact Hsleeps.
Defined.

Lemma clear_cache_reexecutes_witness :
  ∃ r p' w' k,
    process builtin_operation sample_data (snd (clear_cache (cached_processor, World_init)))
    = (r, (p', w'))
    ∧ calls w' = k ∧ (1 ≤ k)%nat.
Proof.
  destruct (clear_cache_reexecutes builtin_operation sample_data
              cached_processor World_init)
    as (r & p' & w' & evs & k & Hrun & _ & Hcalls & Hk & _); [reflexivity|simpl; lia|].
  exists r, p', w', k. split; [exact Hrun|]. split; [exact Hcalls|]. exact Hk.
Defined.

Lemma process_cache_disabled_witness :
  ∃ r p' w',
    process builtin_operation sample_data (uncached_processor, World_init)
    = (r, (p', w'))
    ∧ _cache p' = ∅.
Proof.
  destruct (process_cache_disabled builtin_operation sample_data
              uncached_processor World_init)
    as (r & p' & w' & k & Hrun & _ & _ & Hcache & _);
    [reflexivity|reflexivity|simpl; lia|].
  exists r, p', w'. split; [exact Hrun|]. exact Hcache.
Defined.

Lemma process_batch_single_witness :
  ∃ r p' w' h',
    process builtin_operation sample_data (fresh_heap 0%nat, World_init) = (r, (p', w'))
    ∧ process_batch builtin_operation [0; 0; 3; 0]%nat one_engine [sample_data]
        fresh_heap World_init
      = (Ok [r], (h', w')).
Proof.
  destruct (process_batch_single builtin_operation [0; 0; 3; 0]%nat one_engine 0%nat
              sample_data fresh_heap World_init)
    as (r & p' & w' & h' & Hrun & Hbatch & _); [reflexivity|].
  exists r, p', w', h'. split; [exact Hrun|]. exact Hbatch.
Defined.

Lemma process_batch_empty_witness :
  ∃ h', process_batch always_failing [0; 1]%nat one_engine [] fresh_heap World_init
        = (Ok [], (h', World_init)).
Proof.
  destruct (process_batch_empty always_failing [0; 1]%nat one_engine
              fresh_heap World_init)
    as (h' & Hrun & _); [discriminate|].
  exists h'. exact Hrun.
Defined.

(** X14 on a batch of two records whose first call fails: what the
    fresh engine's cache holds afterwards, a call of the batch on one of
    the two records returned. *)
Lemma process_batch_cache_sound_witness :
  ∃ slots h' w' evs,
    process_batch (flaky_operation 1) [1; 0; 1]%nat one_engine
      [sample_data; late_data] fresh_heap World_init
    = (Ok slots, (h', w'))
    ∧ trace w' = evs
    ∧ ∀ key v, _cache (h' 0%nat) !! key = Some v →
        ∃ n data, Exec n data ∈ evs
                  ∧ data ∈ [sample_data; late_data]
                  ∧ flaky_operation 1 n data = Ok v
                  ∧ cache_key data = Some key.
Proof.
  destruct (process_batch_cache_sound (flaky_operation 1) [1; 0; 1]%nat one_engine
              0%nat [sample_data; late_data] fresh_heap World_init)
    as (slots & h' & w' & evs & Hrun & Htrace & Hcache); [reflexivity|].
  exists slots, h', w', evs. split; [exact Hrun|]. split; [exact Htrace|].
  intros key v Hc. destruct (Hcache key v Hc) as [Hold|Hnew]; [|exact Hnew].
  simpl in Hold. rewrite lookup_empty in Hold. discriminate Hold.
Defined.

(** [test_process_batch]: the two copies of the record both call the
    operation. *)
Lemma process_batch_no_dedup_witness :
  ∃ slots h' w',
    process_batch builtin_operation [0; 1; 1; 0]%nat one_engine
      [sample_data; sample_data] fresh_heap World_init
    = (Ok slots, (h', w'))
    ∧ calls w' = 2%nat
    ∧ processed (_metrics (h' 0%nat)) = 2
    ∧ cache_hits (_metrics (h' 0%nat)) = 0.
Proof.
  destruct (process_batch_no_dedup builtin_operation [1; 0]%nat one_engine 0%nat
              [sample_data; sample_data] fresh_heap World_init)
    as (slots & h' & w' & Hrun & _ & _ & Hcalls & Hproc & Hhits & _).
  - reflexivity.
  - simpl. lia.
  - intros i d Hd. destruct i as [|[|i]]; simpl in Hd; [| |done];
      injection Hd as <-; (split; [reflexivity|]); (split; [reflexivity|]);
      eexists; reflexivity.
  - exists slots, h', w'. split; [exact Hrun|]. split; [exact Hcalls|].
    split; [exact Hproc|]. exact Hhits.
Defined.


Lemma create_feature_processor_fields_witness :
  ∃ p, create_feature_processor (Some [("max_retries", VInt (-2)); ("timeout", VInt 0)])
       = Some (Ok p)
       ∧ max_retries (config p) = -2
       ∧ cache_enabled (config p) = true.
Proof.
  eexists. split; [reflexivity|].
  destruct (create_feature_processor_fields
              [("max_retries", VInt (-2)); ("timeout", VInt 0)] _ eq_refl)
    as (_ & _ & Hmr & _ & _ & Hce & _).
  split; [apply Hmr; reflexivity|apply Hce; reflexivity].
Defined.

Lemma process_same_key_witness :
  ∃ r p1 w1 p2 w2,
    process builtin_operation sample_data (fresh_processor 2, World_init)
    = (Ok r, (p1, w1))
    ∧ process builtin_operation other_payload (p1, w1) = (Ok r, (p2, w2))
    ∧ calls w2 = calls w1.
Proof.
  destruct (process_same_key builtin_operation sample_data other_payload
              (fresh_processor 2) World_init)
    as (r & p1 & w1 & p2 & w2 & H1 & H2 & Hcalls & _).
  - reflexivity.
  - simpl. lia.
  - reflexivity.
  - reflexivity.
  - reflexivity.
  - eexists. reflexivity.
  - exists r, p1, w1, p2, w2. split; [exact H1|]. split; [exact H2|]. exact Hcalls.
Defined.
